(** * Perforated plate generator: the image-to-dot-pattern engine

    A shallow embedding of [src/App.tsx] (with the types of [src/types.ts]):
    the grid, the radius mapping, the loop over the cells, the chunked run
    with its generation token, and the SVG export.

    Conventions of the embedding:
    - JavaScript numbers are exact rationals ([Q]): no rounding, no NaN and
      no Infinity; the division by a spacing of 0 is outside the embedding.
      Two computations carry the rounding of binary64: the progress
      percentage, and the radius mapping, which is given once more over an
      arithmetic, read over the rationals rounded to binary64 after each
      operation and over binary64 floats.
    - The pixel buffer is a list of bytes.  A read past its end, [undefined]
      in the source, turns the radius into NaN and fails the test
      [radius > 0.1]: it is the [None] of an [option], and the cell has no
      dot.
    - The browser is a black box in three places.  The canvas context hands
      the engine the bytes of the image resampled to the grid, and throws
      on a grid without a column or without a row.  The image
      element becomes incomplete when its source changes, and complete again
      with its load event.  The clock of a chunk is a number of rows, any
      number, that the 12 ms let through.
    - The React state is passed explicitly; the hidden canvas is mounted. *)

From Stdlib Require Import ZArith QArith Qround Qabs Qpower Lqa Lia.
From Stdlib Require PrimFloat FloatOps SpecFloat.
From Stdlib Require Import List Bool Sorted.
From Stdlib.Strings Require Import String Ascii Byte.
From Stdlib Require Import DecimalString.
From Stdlib Require DecimalPos.
Import ListNotations.

Open Scope Q_scope.

(** ** types.ts *)

Inductive Shape : Set := circle | square.

Record PlateConfig : Set := mkPlateConfig {
  width : Q;        (* mm *)
  height : Q;       (* mm *)
  spacing : Q;      (* mm (pitch) *)
  minHoleSize : Q;  (* mm (diameter) *)
  maxHoleSize : Q;  (* mm (diameter) *)
  margin : Q;       (* mm *)
  inverted : bool;
  threshold : Q;
  shape : Shape
}.

Record Dot : Set := mkDot {
  x : Q;  (* mm center relative to plate *)
  y : Q;  (* mm center relative to plate *)
  r : Q   (* mm radius *)
}.

(** ** App.tsx: the grid *)

Definition DEFAULT_CONFIG : PlateConfig :=
  {| width := 500; height := 500; spacing := 8;
     minHoleSize := 1; maxHoleSize := 6; margin := 10;
     inverted := false; threshold := 128; shape := circle |}.

(** [Math.max(0, v)] *)
Definition max0 (v : Q) : Q := if Qle_bool v 0 then 0 else v.

Definition effW (config : PlateConfig) : Q :=
  max0 (width config - margin config * 2).

Definition effH (config : PlateConfig) : Q :=
  max0 (height config - margin config * 2).

(** [effW <= 0 || effH <= 0] *)
Definition degenerate (config : PlateConfig) : bool :=
  Qle_bool (effW config) 0 || Qle_bool (effH config) 0.

(** [Math.floor(effW / config.spacing)]; the source divides by
    [config.spacing] unguarded, the embedding follows it for
    [spacing <> 0]. *)
Definition cols (config : PlateConfig) : Z :=
  Qfloor (effW config / spacing config).

Definition rows (config : PlateConfig) : Z :=
  Qfloor (effH config / spacing config).

(** ** App.tsx: one cell *)

Definition byteQ (b : byte) : Q := inject_Z (Z.of_N (Byte.to_N b)).

(** [data[idx]]: a read past the end of the typed array is [undefined]. *)
Definition channel (data : list byte) (idx : Z) : option Q :=
  if (idx <? 0)%Z then None
  else option_map byteQ (nth_error data (Z.to_nat idx)).

Definition luminance (cr cg cb : Q) : Q :=
  0.299 * cr + 0.587 * cg + 0.114 * cb.

(** [norm = luminance / 255] of the cell whose first byte is at [idx]. *)
Definition sample (data : list byte) (idx : Z) : option Q :=
  match channel data idx, channel data (idx + 1), channel data (idx + 2) with
  | Some cr, Some cg, Some cb => Some (luminance cr cg cb / 255)
  | _, _, _ => None
  end.

Definition radiusRange (config : PlateConfig) : Q :=
  (maxHoleSize config - minHoleSize config) / 2.

Definition minRad (config : PlateConfig) : Q := minHoleSize config / 2.

(** The radius mapping of the inner loop, from the sample [luminance / 255]. *)
Definition mapRadius (config : PlateConfig) (luminanceSample : Q) : Q :=
  let norm := if inverted config then 1 - luminanceSample else luminanceSample in
  let sizeFactor := 1 - norm in
  minRad config + (sizeFactor * radiusRange config).

Definition physX (config : PlateConfig) (xi : nat) : Q :=
  margin config + (inject_Z (Z.of_nat xi) * spacing config) + (spacing config / 2).

Definition physY (config : PlateConfig) (yi : nat) : Q :=
  margin config + (inject_Z (Z.of_nat yi) * spacing config) + (spacing config / 2).

(** [radius > 0.1] *)
Definition above_cutoff (radius : Q) : bool := negb (Qle_bool radius 0.1).

Definition cellIndex (ncols : Z) (yi xi : nat) : Z :=
  ((Z.of_nat yi * ncols + Z.of_nat xi) * 4)%Z.

(** The body of [for (let x = 0; x < cols; x++)]: the dot pushed for the cell
    [(x, y)], if any. *)
Definition cellDot (config : PlateConfig) (data : list byte) (ncols : Z)
    (yi xi : nat) : option Dot :=
  match sample data (cellIndex ncols yi xi) with
  | None => None
  | Some norm =>
      let radius := mapRadius config norm in
      if above_cutoff radius
      then Some {| x := physX config xi; y := physY config yi; r := radius |}
      else None
  end.

Definition push (newDots : list Dot) (d : option Dot) : list Dot :=
  match d with
  | Some dot => newDots ++ [dot]
  | None => newDots
  end.

(** One iteration of [while (y < rows)] past the clock test: the whole inner
    [for] loop over [x]. *)
Definition processRow (config : PlateConfig) (data : list byte) (ncols : Z)
    (yi : nat) (newDots : list Dot) : list Dot :=
  fold_left (fun acc xi => push acc (cellDot config data ncols yi xi))
            (seq 0 (Z.to_nat ncols)) newDots.

(** The rows [y0, y0 + n) in order. *)
Definition processRows (config : PlateConfig) (data : list byte) (ncols : Z)
    (y0 n : nat) (newDots : list Dot) : list Dot :=
  fold_left (fun acc yi => processRow config data ncols yi acc)
            (seq y0 n) newDots.

(** The dots of a run that is never interrupted: every row from 0 to
    [rows - 1] into an empty [newDots]. *)
Definition generate (config : PlateConfig) (data : list byte) : list Dot :=
  processRows config data (cols config) 0 (Z.to_nat (rows config)) [].

(** ** App.tsx: the radius mapping in the arithmetic of the machine

    A JavaScript number is a binary64 float, and each operation rounds its
    exact result to the nearest float.  The radius mapping is given here
    over an arithmetic: the exact one of the definitions above, the
    rationals rounded to binary64 after each operation, or the binary64
    floats themselves. *)

Record Arithmetic : Type := mkArithmetic {
  number : Type;
  n_one : number;
  n_two : number;
  n_add : number -> number -> number;
  n_sub : number -> number -> number;
  n_mul : number -> number -> number;
  n_div : number -> number -> number
}.

Section RadiusMapping.

Variable A : Arithmetic.

(** [(config.maxHoleSize - config.minHoleSize) / 2] *)
Definition radiusRange_in (minHoleSize maxHoleSize : number A) : number A :=
  n_div A (n_sub A maxHoleSize minHoleSize) (n_two A).

(** [config.minHoleSize / 2] *)
Definition minRad_in (minHoleSize : number A) : number A :=
  n_div A minHoleSize (n_two A).

(** [norm], [sizeFactor] and [radius] of the inner loop. *)
Definition mapRadius_in (minHoleSize maxHoleSize : number A) (inverted : bool)
    (luminanceSample : number A) : number A :=
  let norm :=
    if inverted then n_sub A (n_one A) luminanceSample else luminanceSample in
  let sizeFactor := n_sub A (n_one A) norm in
  n_add A (minRad_in minHoleSize)
        (n_mul A sizeFactor (radiusRange_in minHoleSize maxHoleSize)).

End RadiusMapping.

Definition exact : Arithmetic :=
  {| number := Q; n_one := 1; n_two := 2;
     n_add := Qplus; n_sub := Qminus; n_mul := Qmult; n_div := Qdiv |}.

(** Each operation is the exact one followed by a rounding. *)
Definition rounded (round : Q -> Q) : Arithmetic :=
  {| number := Q; n_one := 1; n_two := 2;
     n_add := fun a b => round (a + b);
     n_sub := fun a b => round (a - b);
     n_mul := fun a b => round (a * b);
     n_div := fun a b => round (a / b) |}.

(** *** Rounding to the nearest binary64 float

    A positive float is a significand below 2^53 times a power of two that
    is at least 2^-1074; below 2^-1022 the floats are 2^-1074 apart.
    Rounding goes to the nearest float, a tie to the one with the even
    significand.  Numbers beyond the largest float, which round to
    Infinity, are outside the embedding. *)

(** The integer part of the binary logarithm of a positive rational. *)
Definition ilog2 (q : Q) : Z :=
  let k := (Z.log2 (Qnum q) - Z.log2 (Zpos (Qden q)))%Z in
  if Qle_bool (2 ^ k) q then k else (k - 1)%Z.

(** The nearest integer, a tie going to the even one. *)
Definition roundEven (q : Q) : Z :=
  let f := Qfloor q in
  match Qcompare (q - inject_Z f) (1 # 2) with
  | Lt => f
  | Gt => (f + 1)%Z
  | Eq => if Z.even f then f else (f + 1)%Z
  end.

(** The exponent of the last place of the floats around a positive [q]. *)
Definition ulpExponent (q : Q) : Z := Z.max (ilog2 q - 52) (-1074).

Definition roundPositive (q : Q) : Q :=
  let e := ulpExponent q in
  inject_Z (roundEven (q / 2 ^ e)) * 2 ^ e.

Definition round64 (q : Q) : Q :=
  match Qcompare q 0 with
  | Eq => 0
  | Gt => roundPositive q
  | Lt => - roundPositive (- q)
  end.

(** *** The binary64 floats of Rocq *)

Module Binary64.

Import PrimFloat.

Definition arithmetic : Arithmetic :=
  {| number := float; n_one := 1%float; n_two := 2%float;
     n_add := add; n_sub := sub; n_mul := mul; n_div := div |}.

(** [a > b] *)
Definition gt (a b : float) : bool := ltb b a.

(** The rational a finite float stands for. *)
Definition value (v : float) : option Q :=
  match FloatOps.Prim2SF v with
  | SpecFloat.S754_zero _ => Some 0
  | SpecFloat.S754_finite s m e =>
      Some ((if s then - inject_Z (Zpos m) else inject_Z (Zpos m)) * 2 ^ e)
  | _ => None
  end.

(** The float of an integer. *)
Definition of_Z (n : Z) : float :=
  FloatOps.SF2Prim
    (SpecFloat.binary_normalize FloatOps.prec FloatOps.emax n 0 false).

(** The float nearest to a rational whose numerator and denominator are
    below 2^53, as that of a decimal literal of the source is: both are
    floats, and the division rounds once. *)
Definition of_Q (q : Q) : float :=
  div (of_Z (Qnum q)) (of_Z (Zpos (Qden q))).

(** The float [v] stands for the rational [q]. *)
Definition same (v : float) (q : Q) : bool :=
  match value v with
  | Some q' => Qeq_bool q' q
  | None => false
  end.

End Binary64.

(** ** App.tsx: the chunked loop, as explicit state passing

    The React state and refs that [processImage] touches, the one
    [HTMLImageElement] of [imageRef] (shared by all runs: its [src], its
    [complete] flag and its single [onload] slot), and the callbacks handed to
    [requestAnimationFrame], oldest first. *)

(** What one call of [img.onload] leaves in the closure of [processChunk]. *)
Record Run : Set := mkRun {
  currentProcessId : nat;
  run_config : PlateConfig;
  run_data : list byte;
  run_cols : Z;
  run_rows : Z;
  run_y : nat;
  newDots : list Dot
}.

Record App : Set := mkApp {
  processIdRef : nat;
  dots : list Dot;
  processing : bool;
  progress : Z;
  img_src : string;
  img_complete : bool;
  img_onload : option (nat * PlateConfig);
  animationFrames : list Run
}.

(** The state of a freshly mounted component; [new Image()] has no source and
    is [complete]. *)
Definition initial : App :=
  {| processIdRef := 0; dots := []; processing := false; progress := 0%Z;
     img_src := EmptyString; img_complete := true; img_onload := None;
     animationFrames := [] |}.

(** [Math.round(v)]: the nearest integer, a tie going up. *)
Definition Math_round (v : Q) : Z := Qfloor (v + (1 # 2)).

(** [Math.round((y / rows) * 100)]: [y] and [rows] are integers, floats
    themselves below 2^53; the quotient and the product are rounded to
    binary64, and [Math.round] is exact. *)
Definition progressAt (yi : nat) (nrows : Z) : Z :=
  Math_round
    (round64 (round64 (inject_Z (Z.of_nat yi) / inject_Z nrows) * 100)).

Definition rowStep (run : Run) : Run :=
  {| currentProcessId := currentProcessId run;
     run_config := run_config run;
     run_data := run_data run;
     run_cols := run_cols run;
     run_rows := run_rows run;
     run_y := S (run_y run);
     newDots := processRow (run_config run) (run_data run) (run_cols run)
                           (run_y run) (newDots run) |}.

(** [while (y < rows)]: [budget] is the number of times the clock test
    [performance.now() - startTime > CHUNK_TIME_MS] is false before it is
    true, that is, the number of rows the 12 ms allow in this chunk.  The
    result says whether the loop ran to its end ([true]) or left through the
    clock test ([false]). *)
Fixpoint whileRows (budget : nat) (run : Run) : Run * bool :=
  if (Z.of_nat (run_y run) <? run_rows run)%Z then
    match budget with
    | O => (run, false)
    | S budget' => whileRows budget' (rowStep run)
    end
  else (run, true).

Definition processChunk (budget : nat) (run : Run) (app : App) : App :=
  if negb (processIdRef app =? currentProcessId run)%nat then app
  else
    match whileRows budget run with
    | (run', false) =>
        (* setProgress(...); requestAnimationFrame(processChunk); return *)
        {| processIdRef := processIdRef app;
           dots := dots app;
           processing := processing app;
           progress := progressAt (run_y run') (run_rows run');
           img_src := img_src app;
           img_complete := img_complete app;
           img_onload := img_onload app;
           animationFrames := animationFrames app ++ [run'] |}
    | (run', true) =>
        (* setDots(newDots); setProcessing(false); setProgress(100) *)
        {| processIdRef := processIdRef app;
           dots := newDots run';
           processing := false;
           progress := 100%Z;
           img_src := img_src app;
           img_complete := img_complete app;
           img_onload := img_onload app;
           animationFrames := animationFrames app |}
    end.

(** [ctx.getImageData(sx, sy, sw, sh)] throws an [IndexSizeError] when [sw]
    or [sh] is 0; the source does not catch it. *)
Definition IndexSizeError (sw sh : Z) : bool := (sw =? 0)%Z || (sh =? 0)%Z.

Section Engine.

(** [canvas.getContext('2d', ...)]: no context ([None], the [null] of the
    source), or the context, which is used for one thing:
    [ctx.drawImage(img, 0, 0, cols, rows)] followed by
    [ctx.getImageData(0, 0, cols, rows).data], the browser's resampling of the
    image behind a source to [cols] by [rows] pixels of four bytes, for a
    grid with a column and a row. *)
Variable getContext : option (string -> Z -> Z -> list byte).

(** The handler [processImage] stores in [img.onload], with its captured
    [currentProcessId] and [config]; [budget] is that of the first chunk,
    which the handler runs itself. *)
Definition onload (id : nat) (config : PlateConfig) (budget : nat)
    (app : App) : App :=
  if negb (processIdRef app =? id)%nat then app
  else
    match getContext with
    | None => app   (* if (!ctx) return *)
    | Some getImageData =>
        if degenerate config then
          (* setDots([]); setProcessing(false); return *)
          {| processIdRef := processIdRef app;
             dots := [];
             processing := false;
             progress := progress app;
             img_src := img_src app;
             img_complete := img_complete app;
             img_onload := img_onload app;
             animationFrames := animationFrames app |}
        else
          let ncols := cols config in
          let nrows := rows config in
          if IndexSizeError ncols nrows then
            (* ctx.getImageData(0, 0, cols, rows) throws: the handler ends
               here, after [if (!ctx)] and the guard, before any [set...] *)
            app
          else
            let data := getImageData (img_src app) ncols nrows in
            processChunk budget
              {| currentProcessId := id; run_config := config; run_data := data;
                 run_cols := ncols; run_rows := nrows; run_y := 0;
                 newDots := [] |}
              app
    end.

(** [processImage], called with the canvas mounted, for the [config] and
    [imageSrc] of the render that created it. *)
Definition processImage (config : PlateConfig) (imageSrc : string)
    (budget : nat) (app : App) : App :=
  if String.eqb imageSrc EmptyString then app   (* !imageSrc *)
  else
    let id := S (processIdRef app) in           (* ++processIdRef.current *)
    let changed := negb (String.eqb (img_src app) imageSrc) in
    let app' :=
      {| processIdRef := id;
         dots := dots app;
         processing := true;
         progress := 0%Z;
         img_src := imageSrc;
         img_complete := if changed then false else img_complete app;
         img_onload := Some (id, config);
         animationFrames := animationFrames app |} in
    if img_complete app' then onload id config budget app' else app'.

(** What the host does between two slices of the engine. *)
Inductive event : Set :=
| ProcessImage (config : PlateConfig) (imageSrc : string) (budget : nat)
    (* the debounce timer fires and calls [processImage] *)
| Load (budget : nat)
    (* the image finished loading: its [onload] handler is called *)
| Frame (budget : nat).
    (* the oldest callback given to [requestAnimationFrame] is called *)

Definition step (app : App) (e : event) : App :=
  match e with
  | ProcessImage config imageSrc budget => processImage config imageSrc budget app
  | Load budget =>
      if img_complete app then app
      else
        let app' :=
          {| processIdRef := processIdRef app;
             dots := dots app;
             processing := processing app;
             progress := progress app;
             img_src := img_src app;
             img_complete := true;
             img_onload := img_onload app;
             animationFrames := animationFrames app |} in
        match img_onload app with
        | Some (id, config) => onload id config budget app'
        | None => app'
        end
  | Frame budget =>
      match animationFrames app with
      | [] => app
      | run :: rest =>
          processChunk budget run
            {| processIdRef := processIdRef app;
               dots := dots app;
               processing := processing app;
               progress := progress app;
               img_src := img_src app;
               img_complete := img_complete app;
               img_onload := img_onload app;
               animationFrames := rest |}
      end
  end.

Definition run_events (app : App) (tr : list event) : App :=
  fold_left step tr app.

(** The Dot Set a run on [config] and [imageSrc] publishes when nothing
    interrupts it; without a context, or on a grid without a column or
    without a row, where [getImageData] throws, the run ends in its handler
    and publishes nothing. *)
Definition published (config : PlateConfig) (imageSrc : string)
    : option (list Dot) :=
  match getContext with
  | None => None
  | Some getImageData =>
      if degenerate config then Some []
      else if IndexSizeError (cols config) (rows config) then None
      else Some (generate config
                   (getImageData imageSrc (cols config) (rows config)))
  end.

End Engine.

(** ** App.tsx: the SVG export *)

Definition digit (n : N) : ascii := ascii_of_N (48 + n mod 10).

Definition digits (n : N) : string :=
  NilEmpty.string_of_uint (N.to_uint n).

Definition is_digit (c : ascii) : bool :=
  let n := N_of_ascii c in ((48 <=? n) && (n <=? 57))%N.

Definition minus_sign (v : Q) : string :=
  if Qle_bool 0 v then EmptyString else "-"%string.

(** The decimals of a fraction [num / den] below one, at most [fuel] of them,
    none after the remainder is zero. *)
Fixpoint fraction (fuel : nat) (num den : N) : string :=
  match fuel with
  | O => EmptyString
  | S fuel' =>
      if (num =? 0)%N then EmptyString
      else String (digit (10 * num / den))
                  (fraction fuel' ((10 * num) mod den) den)
  end.

(** The conversion of a number to a string that a template literal applies
    to [${v}], for the numbers the plate dimensions take: an integer below
    10^21 is written as its digits, without a decimal point; a number with a
    short decimal expansion as these digits.  Exponent forms and the rounding
    to 17 significant digits are not modelled. *)
Definition Number_toString (v : Q) : string :=
  let a := Qabs v in
  let whole := Z.to_N (Qfloor a) in
  let num := Z.to_N (Qnum a - Qfloor a * Z.pos (Qden a)) in
  let dec := fraction 20 num (Npos (Qden a)) in
  (minus_sign v ++ digits whole ++
   (if (num =? 0)%N then EmptyString else "."%string ++ dec))%string.

(** [v.toFixed(2)]: below 10^21 in absolute value, the integer [n] with
    [n / 100] nearest to [|v|] (the larger of two), written with a point
    before its last two digits behind the sign of [v]; from 10^21 on, the
    default conversion. *)
Definition toFixed2 (v : Q) : string :=
  let a := Qabs v in
  if Qle_bool (inject_Z (10 ^ 21)) a then Number_toString v
  else
    let n := Z.to_N (Qfloor (a * 100 + (1 # 2))) in
    (minus_sign v ++ digits (n / 100) ++ "." ++
     String (digit (n / 10)) (String (digit n) EmptyString))%string.

(** A piece of the template literal: its own text, or the string an
    interpolation [${...}] of a number evaluates to. *)
Inductive piece : Set :=
| Text (s : string)
| Interp (s : string).

Definition piece_string (p : piece) : string :=
  match p with
  | Text s => s
  | Interp s => s
  end.

Definition dq : string := String "034"%char EmptyString.
Definition nl : string := String "010"%char EmptyString.

(** [<circle cx="${(d.x).toFixed(2)}" cy="${(d.y).toFixed(2)}"
    r="${(d.r).toFixed(2)}" />] *)
Definition circlePieces (d : Dot) : list piece :=
  [ Text ("<circle cx=" ++ dq)%string; Interp (toFixed2 (x d));
    Text (dq ++ " cy=" ++ dq)%string; Interp (toFixed2 (y d));
    Text (dq ++ " r=" ++ dq)%string; Interp (toFixed2 (r d));
    Text (dq ++ " />")%string ].

(** The pieces in front of the circles: [finalWidth] and [finalHeight] are
    interpolated as they are. *)
Definition headPieces (config : PlateConfig) : list piece :=
  let finalWidth := width config in
  let finalHeight := height config in
  [ Text ("<svg " ++ nl ++ "    xmlns=" ++ dq ++ "http://www.w3.org/2000/svg"
          ++ dq ++ " " ++ nl ++ "    width=" ++ dq)%string;
    Interp (Number_toString finalWidth);
    Text ("mm" ++ dq ++ " " ++ nl ++ "    height=" ++ dq)%string;
    Interp (Number_toString finalHeight);
    Text ("mm" ++ dq ++ " " ++ nl ++ "    viewBox=" ++ dq ++ "0 0 ")%string;
    Interp (Number_toString finalWidth);
    Text " "%string;
    Interp (Number_toString finalHeight);
    Text (dq ++ nl ++ ">" ++ nl ++ "    <!-- Created with PerfoMate -->" ++ nl
          ++ "    <rect x=" ++ dq ++ "0" ++ dq ++ " y=" ++ dq ++ "0" ++ dq
          ++ " width=" ++ dq)%string;
    Interp (Number_toString finalWidth);
    Text (dq ++ " height=" ++ dq)%string;
    Interp (Number_toString finalHeight);
    Text (dq ++ " fill=" ++ dq ++ "none" ++ dq ++ " stroke=" ++ dq ++ "black"
          ++ dq ++ " stroke-width=" ++ dq ++ "0.5" ++ dq ++ " />" ++ nl
          ++ "    <g fill=" ++ dq ++ "black" ++ dq ++ ">" ++ nl
          ++ "        ")%string ].

Definition tailPieces : list piece :=
  [ Text (nl ++ "    </g>" ++ nl ++ "</svg>")%string ].

(** The template literal of [handleExport], after [.trim()]. *)
Definition svgPieces (config : PlateConfig) (ds : list Dot) : list piece :=
  headPieces config ++ flat_map circlePieces ds ++ tailPieces.

(** [svgContent]; nothing is exported ([None]) when there is no dot. *)
Definition svgContent (config : PlateConfig) (ds : list Dot) : option string :=
  match ds with
  | [] => None
  | _ => Some (String.concat EmptyString (map piece_string (svgPieces config ds)))
  end.

(** The strings the interpolated numbers are written as, in document order. *)
Definition interpolated (ps : list piece) : list string :=
  flat_map (fun p => match p with Interp s => [s] | Text _ => [] end) ps.

Definition numericValues (config : PlateConfig) (ds : list Dot) : list string :=
  interpolated (svgPieces config ds).

Fixpoint all_digits (s : string) : bool :=
  match s with
  | EmptyString => true
  | String c s' => is_digit c && all_digits s'
  end.

(** A point and two digits, and nothing else. *)
Definition decimals2 (s : string) : bool :=
  match s with
  | String c (String d1 (String d2 EmptyString)) =>
      Ascii.eqb c "."%char && is_digit d1 && is_digit d2
  | _ => false
  end.

(** Digits, at least one, then a point and two digits. *)
Fixpoint fixed2_unsigned (s : string) : bool :=
  match s with
  | String c s' => is_digit c && (decimals2 s' || fixed2_unsigned s')
  | EmptyString => false
  end.

(** A number in fixed notation with exactly two decimals, as [12.50] or
    [-0.07]. *)
Definition two_decimals (s : string) : bool :=
  match s with
  | String c s' =>
      if Ascii.eqb c "-"%char then fixed2_unsigned s' else fixed2_unsigned s
  | EmptyString => false
  end.

(** The numbers of one circle, as [toFixed(2)] writes them. *)
Definition circleValues (d : Dot) : list string :=
  [toFixed2 (x d); toFixed2 (y d); toFixed2 (r d)].

(** The range in which [toFixed] uses the fixed notation. *)
Definition fixed_range (v : Q) : Prop := Qabs v < inject_Z (10 ^ 21).

(** ** PreviewCanvas.tsx: the view and the hole drawing *)

(** [Math.min(a, b)] and [Math.max(a, b)] *)
Definition Math_min (a b : Q) : Q := if Qle_bool a b then a else b.

Definition Math_max (a b : Q) : Q := if Qle_bool a b then b else a.

(** [v > 0] *)
Definition positive (v : Q) : bool := negb (Qle_bool v 0).

Module PreviewCanvas.

(** [ViewState] of types.ts. *)
Record ViewState : Set := mkViewState {
  scale : Q;
  offsetX : Q;
  offsetY : Q
}.

(** [Math.min(scaleX, scaleY, 5)] for a container of [clientWidth] by
    [clientHeight] pixels. *)
Definition fitScale (clientWidth clientHeight : Q) (config : PlateConfig) : Q :=
  let scaleX := (clientWidth - 80) / width config in
  let scaleY := (clientHeight - 80) / height config in
  Math_min (Math_min scaleX scaleY) 5.

(** The view the first effect sets, with its guard [fitScale > 0 ? fitScale : 1]. *)
Definition initialView (clientWidth clientHeight : Q) (config : PlateConfig)
    : ViewState :=
  let fit := fitScale clientWidth clientHeight config in
  {| scale := if positive fit then fit else 1;
     offsetX := (clientWidth - width config * (if positive fit then fit else 1)) / 2;
     offsetY := (clientHeight - height config * (if positive fit then fit else 1)) / 2 |}.

(** [resetView]: the same fit, without the guard. *)
Definition resetView (clientWidth clientHeight : Q) (config : PlateConfig)
    : ViewState :=
  let fit := fitScale clientWidth clientHeight config in
  {| scale := fit;
     offsetX := (clientWidth - width config * fit) / 2;
     offsetY := (clientHeight - height config * fit) / 2 |}.

(** [handleWheel], for the [deltaY] of the wheel event: the new scale is
    computed from [view], the state of the render that created the handler,
    and written into [prev], the state at the time of the update. *)
Definition handleWheel (deltaY : Q) (view prev : ViewState) : ViewState :=
  let zoomFactor := - deltaY * 0.001 in
  let newScale := Math_max 0.1 (Math_min 50 (scale view * (1 + zoomFactor))) in
  {| scale := newScale; offsetX := offsetX prev; offsetY := offsetY prev |}.

(** The state of the component that the mouse handlers touch. *)
Record Preview : Set := mkPreview {
  view : ViewState;
  isDragging : bool;
  dragStart : Q * Q
}.

(** The mouse events of the canvas, with [clientX] and [clientY]. *)
Inductive mouse : Set :=
| MouseDown (clientX clientY : Q)
| MouseMove (clientX clientY : Q)
| MouseUp.   (* also [onMouseLeave] *)

Definition handleMouseDown (clientX clientY : Q) (p : Preview) : Preview :=
  {| view := view p;
     isDragging := true;
     dragStart := (clientX - offsetX (view p), clientY - offsetY (view p)) |}.

Definition handleMouseMove (clientX clientY : Q) (p : Preview) : Preview :=
  if isDragging p then
    {| view := {| scale := scale (view p);
                  offsetX := clientX - fst (dragStart p);
                  offsetY := clientY - snd (dragStart p) |};
       isDragging := isDragging p;
       dragStart := dragStart p |}
  else p.

Definition handleMouseUp (p : Preview) : Preview :=
  {| view := view p; isDragging := false; dragStart := dragStart p |}.

Definition handleMouse (p : Preview) (e : mouse) : Preview :=
  match e with
  | MouseDown cx cy => handleMouseDown cx cy p
  | MouseMove cx cy => handleMouseMove cx cy p
  | MouseUp => handleMouseUp p
  end.

(** The viewport culling of the draw effect, in plate coordinates. *)
Definition visibleMinX (v : ViewState) : Q := - offsetX v / scale v.
Definition visibleMinY (v : ViewState) : Q := - offsetY v / scale v.
Definition visibleMaxX (v : ViewState) (clientWidth : Q) : Q :=
  (clientWidth - offsetX v) / scale v.
Definition visibleMaxY (v : ViewState) (clientHeight : Q) : Q :=
  (clientHeight - offsetY v) / scale v.

Definition maxR (config : PlateConfig) : Q := maxHoleSize config / 2.

(** The loop over [dots] between [ctx.beginPath()] and [ctx.fill()]: the
    holes for which [moveTo] and [arc] are called, in this order.  The loop
    is left ([break]) at the first dot below the padded viewport. *)
Fixpoint holesLoop (padMinX padMaxX padMinY padMaxY : Q) (dots : list Dot)
    : list Dot :=
  match dots with
  | [] => []
  | dot :: rest =>
      if negb (Qle_bool (y dot) padMaxY) then []                (* break *)
      else if negb (Qle_bool padMinY (y dot)) then              (* continue *)
        holesLoop padMinX padMaxX padMinY padMaxY rest
      else if negb (Qle_bool padMinX (x dot))
              || negb (Qle_bool (x dot) padMaxX) then           (* continue *)
        holesLoop padMinX padMaxX padMinY padMaxY rest
      else dot :: holesLoop padMinX padMaxX padMinY padMaxY rest
  end.

Definition drawHoles (v : ViewState) (clientWidth clientHeight : Q)
    (config : PlateConfig) (dots : list Dot) : list Dot :=
  let padMinX := visibleMinX v - maxR config in
  let padMaxX := visibleMaxX v clientWidth + maxR config in
  let padMinY := visibleMinY v - maxR config in
  let padMaxY := visibleMaxY v clientHeight + maxR config in
  holesLoop padMinX padMaxX padMinY padMaxY dots.

End PreviewCanvas.

(** ** Sidebar: the configuration controls *)

Module Sidebar.

(** The calls of [handleChange] the controls make: a numeric field with its
    number, or the polarity flag with its boolean. *)
Inductive change : Set :=
| Width (value : Q)
| Height (value : Q)
| Margin (value : Q)
| Spacing (value : Q)
| MinHoleSize (value : Q)
| MaxHoleSize (value : Q)
| Inverted (value : bool).

(** The [onChange] of [NumberInput]: [if (max && val > max) val = max]; no
    [max], or a [max] of 0, caps nothing. *)
Definition NumberInput_onChange (max : option Q) (val : Q) : Q :=
  match max with
  | Some m => if negb (Qeq_bool m 0) && negb (Qle_bool val m) then m else val
  | None => val
  end.

(** [if (value > 999) value = 999] *)
Definition cap999 (value : Q) : Q :=
  if negb (Qle_bool value 999) then 999 else value.

(** [handleChange(key, value)], as the update of the configuration that
    [setConfig] receives. *)
Definition handleChange (c : change) (prev : PlateConfig) : PlateConfig :=
  match c with
  | Width value =>
      {| width := cap999 value; height := height prev;
         spacing := spacing prev; minHoleSize := minHoleSize prev;
         maxHoleSize := maxHoleSize prev; margin := margin prev;
         inverted := inverted prev; threshold := threshold prev;
         shape := shape prev |}
  | Height value =>
      {| width := width prev; height := cap999 value;
         spacing := spacing prev; minHoleSize := minHoleSize prev;
         maxHoleSize := maxHoleSize prev; margin := margin prev;
         inverted := inverted prev; threshold := threshold prev;
         shape := shape prev |}
  | Margin value =>
      {| width := width prev; height := height prev;
         spacing := spacing prev; minHoleSize := minHoleSize prev;
         maxHoleSize := maxHoleSize prev; margin := value;
         inverted := inverted prev; threshold := threshold prev;
         shape := shape prev |}
  | Spacing value =>
      {| width := width prev; height := height prev;
         spacing := value; minHoleSize := minHoleSize prev;
         maxHoleSize := maxHoleSize prev; margin := margin prev;
         inverted := inverted prev; threshold := threshold prev;
         shape := shape prev |}
  | MinHoleSize value =>
      {| width := width prev; height := height prev;
         spacing := spacing prev; minHoleSize := value;
         maxHoleSize := maxHoleSize prev; margin := margin prev;
         inverted := inverted prev; threshold := threshold prev;
         shape := shape prev |}
  | MaxHoleSize value =>
      {| width := width prev; height := height prev;
         spacing := spacing prev; minHoleSize := minHoleSize prev;
         maxHoleSize := value; margin := margin prev;
         inverted := inverted prev; threshold := threshold prev;
         shape := shape prev |}
  | Inverted value =>
      {| width := width prev; height := height prev;
         spacing := spacing prev; minHoleSize := minHoleSize prev;
         maxHoleSize := maxHoleSize prev; margin := margin prev;
         inverted := value; threshold := threshold prev;
         shape := shape prev |}
  end.

(** What a control sends for the number typed into it: the width and height
    inputs have [max={999}], the others no [max]. *)
Definition typed (c : change) : change :=
  match c with
  | Width value => Width (NumberInput_onChange (Some 999) value)
  | Height value => Height (NumberInput_onChange (Some 999) value)
  | Margin value => Margin (NumberInput_onChange None value)
  | MinHoleSize value => MinHoleSize (NumberInput_onChange None value)
  | MaxHoleSize value => MaxHoleSize (NumberInput_onChange None value)
  | Spacing value => Spacing value
  | Inverted value => Inverted value
  end.

(** The export button: [disabled={processing || dotCount === 0}]. *)
Definition exportDisabled (processing : bool) (dotCount : nat) : bool :=
  processing || (dotCount =? 0)%nat.

End Sidebar.

(** ** Vocabulary of the properties *)

(** Two dots at the same place with the same radius, as rationals. *)
Definition Dot_eq (d1 d2 : Dot) : Prop :=
  x d1 == x d2 /\ y d1 == y d2 /\ r d1 == r d2.

(** Row-major order of two dots, the first one earlier in the sequence. *)
Definition row_major (d1 d2 : Dot) : Prop :=
  y d1 <= y d2 /\ (y d1 == y d2 -> x d1 <= x d2).

(** The number of cells of the grid. *)
Definition cellCount (config : PlateConfig) : nat :=
  (Z.to_nat (cols config) * Z.to_nat (rows config))%nat.

(** The configuration of the end-to-end scenario; it does not fix
    [threshold] and [shape]. *)
Definition scenario_config (t : Q) (s : Shape) : PlateConfig :=
  {| width := 100; height := 100; spacing := 10;
     minHoleSize := 1; maxHoleSize := 6; margin := 0;
     inverted := false; threshold := t; shape := s |}.

(** The dots the scenario names: radius 1.75 at (5,5), (15,5), ..., (95,95),
    row by row. *)
Definition scenario_dots : list Dot :=
  flat_map (fun yi =>
    map (fun xi => {| x := 5 + 10 * inject_Z (Z.of_nat xi);
                      y := 5 + 10 * inject_Z (Z.of_nat yi);
                      r := 1.75 |})
        (seq 0 10))
    (seq 0 10).

(** A buffer of [n] pixels of the colour (22, 206, 0), whose luminance is
    0.299 * 22 + 0.587 * 206 + 0.114 * 0 = 127.5. *)
Definition half_luminance_image (n : nat) : list byte :=
  List.concat (repeat [x16; xce; x00; xff] n).

(** The configuration with its polarity flag set, the other fields kept. *)
Definition set_inverted (b : bool) (config : PlateConfig) : PlateConfig :=
  {| width := width config; height := height config;
     spacing := spacing config;
     minHoleSize := minHoleSize config; maxHoleSize := maxHoleSize config;
     margin := margin config;
     inverted := b;
     threshold := threshold config; shape := shape config |}.

Definition dotList (d : option Dot) : list Dot :=
  match d with
  | Some dot => [dot]
  | None => []
  end.

(** The dots of row [yi], left to right. *)
Definition rowDots (config : PlateConfig) (data : list byte) (ncols : Z)
    (yi : nat) : list Dot :=
  flat_map (fun xi => dotList (cellDot config data ncols yi xi))
           (seq 0 (Z.to_nat ncols)).

(** A plate of one cell whose holes range from 0 to 0.15 mm: a white cell
    falls under the cutoff. *)
Definition faint_config : PlateConfig :=
  {| width := 10; height := 10; spacing := 10;
     minHoleSize := 0; maxHoleSize := 0.15; margin := 0;
     inverted := false; threshold := 128; shape := circle |}.

(** Every cell of an [ncols] by [nrows] buffer has the luminance sample [v]. *)
Definition all_samples (data : list byte) (ncols nrows : Z) (v : Q) : bool :=
  forallb (fun yi =>
    forallb (fun xi =>
      match sample data (cellIndex ncols yi xi) with
      | Some s => Qeq_bool s v
      | None => false
      end)
      (seq 0 (Z.to_nat ncols)))
    (seq 0 (Z.to_nat nrows)).

(** A canvas on which every image is resampled to pixels of the colour
    (22, 206, 0). *)
Definition uniform_canvas (imageSrc : string) (ncols nrows : Z) : list byte :=
  half_luminance_image (Z.to_nat (ncols * nrows)).

(** What the rest of the application sees of the engine. *)
Definition view (app : App) : nat * list Dot * bool * Z :=
  (processIdRef app, dots app, processing app, progress app).

(** Where a run stands: its [onload] handler has not been called yet, its
    loop has yielded before row [yi], or it has ended. *)
Inductive phase : Set :=
| Waiting
| Yielded (yi : nat)
| Done.

Definition stale (id : nat) (run : Run) : Prop := currentProcessId run <> id.

Definition is_start (e : event) : bool :=
  match e with
  | ProcessImage _ _ _ => true
  | _ => false
  end.

(** The closure of the run [id] on [config] and [imageSrc] when its loop
    has done the rows before [yi] and nothing else. *)
Definition run_at (getImageData : string -> Z -> Z -> list byte) (id : nat)
    (config : PlateConfig) (imageSrc : string) (yi : nat) : Run :=
  let data := getImageData imageSrc (cols config) (rows config) in
  {| currentProcessId := id; run_config := config; run_data := data;
     run_cols := cols config; run_rows := rows config; run_y := yi;
     newDots := processRows config data (cols config) 0 yi [] |}.

Section EngineVocabulary.

Variable getContext : option (string -> Z -> Z -> list byte).

(** The view of the application while [id], started over the Dot Set [old],
    is the current run: a function of the inputs of that run and of its
    phase alone.  A run that has ended has published, or, when its handler
    ended without a context or on the exception of [getImageData], has left
    everything as it was when it started. *)
Definition view_of (id : nat) (old : list Dot) (config : PlateConfig)
    (imageSrc : string) (ph : phase) : nat * list Dot * bool * Z :=
  match ph with
  | Waiting => (id, old, true, 0%Z)
  | Yielded yi => (id, old, true, progressAt yi (rows config))
  | Done =>
      match published getContext config imageSrc with
      | Some ds => (id, ds, false, if degenerate config then 0%Z else 100%Z)
      | None => (id, old, true, 0%Z)
      end
  end.

(** The invariant of the engine between the start of the run [id] and the
    start of the next one. *)
Definition current_run (id : nat) (old : list Dot) (config : PlateConfig)
    (imageSrc : string) (ph : phase) (app : App) : Prop :=
  view app = view_of id old config imageSrc ph /\
  img_src app = imageSrc /\
  match ph with
  | Waiting =>
      img_complete app = false /\
      img_onload app = Some (id, config) /\
      Forall (stale id) (animationFrames app)
  | Yielded yi =>
      img_complete app = true /\
      degenerate config = false /\
      IndexSizeError (cols config) (rows config) = false /\
      (Z.of_nat yi < rows config)%Z /\
      exists getImageData before after,
        getContext = Some getImageData /\
        animationFrames app
        = before ++ run_at getImageData id config imageSrc yi :: after /\
        Forall (stale id) before /\ Forall (stale id) after
  | Done =>
      img_complete app = true /\
      Forall (stale id) (animationFrames app)
  end.

(** No callback carries a token of the future. *)
Definition tokens_bounded (app : App) : Prop :=
  Forall (fun run => (currentProcessId run <= processIdRef app)%nat)
         (animationFrames app).

End EngineVocabulary.

(** The padded viewport of the culling, as a test on one dot. *)
Definition inPad (padMinX padMaxX padMinY padMaxY : Q) (dot : Dot) : bool :=
  Qle_bool padMinX (x dot) && Qle_bool (x dot) padMaxX
  && Qle_bool padMinY (y dot) && Qle_bool (y dot) padMaxY.

(** The mouse moves to the given positions, one after the other. *)
Definition mouseMoves (positions : list (Q * Q)) : list PreviewCanvas.mouse :=
  map (fun p => PreviewCanvas.MouseMove (fst p) (snd p)) positions.

(** The centre of a hole is in the visible rectangle of the plate. *)
Definition centre_visible (v : PreviewCanvas.ViewState)
    (clientWidth clientHeight : Q) (d : Dot) : Prop :=
  (PreviewCanvas.visibleMinX v <= x d
   /\ x d <= PreviewCanvas.visibleMaxX v clientWidth) /\
  PreviewCanvas.visibleMinY v <= y d
  /\ y d <= PreviewCanvas.visibleMaxY v clientHeight.

(** The [processImage] calls of a trace that start a run: those with an
    image source. *)
Definition starts (tr : list event) : nat :=
  List.length
    (filter (fun e => match e with
                      | ProcessImage _ imageSrc _ =>
                          negb (String.eqb imageSrc EmptyString)
                      | _ => false
                      end) tr).


(** * Properties *)

(** Divisions by the constants of the source, as products for [lra]. *)
Ltac qconst :=
  unfold Qdiv in *;
  change (/ 2) with (1 # 2) in *;
  change (/ 255) with (1 # 255) in *.

(** ** The radius mapping *)

Lemma mapRadius_unfold (config : PlateConfig) (s : Q) :
  mapRadius config s ==
  minHoleSize config / 2 +
  (if inverted config then s else 1 - s) *
  ((maxHoleSize config - minHoleSize config) / 2).
Proof.
  unfold mapRadius, minRad, radiusRange.
  destruct (inverted config); field.
Qed.

Lemma mapRadius_range (config : PlateConfig) (s : Q) :
  0 <= s <= 1 ->
  0 <= minHoleSize config <= maxHoleSize config ->
  minHoleSize config / 2 <= mapRadius config s <= maxHoleSize config / 2.
Proof.
  intros [Hs0 Hs1] [Hmin Hmax].
  rewrite mapRadius_unfold.
  set (f := if inverted config then s else 1 - s).
  assert (Hf : 0 <= f <= 1) by (subst f; destruct (inverted config); lra).
  clearbody f. destruct Hf as [Hf0 Hf1].
  set (lo := minHoleSize config) in *. set (hi := maxHoleSize config) in *.
  assert (H1 : 0 <= f * (hi - lo)) by (apply Qmult_le_0_compat; lra).
  assert (H2 : 0 <= (1 - f) * (hi - lo)) by (apply Qmult_le_0_compat; lra).
  qconst. split; lra.
Qed.

(** C5 (inversion symmetry): on a sample [s] of [0,1], the radius with
    [inverted = true] is the radius with [inverted = false] on [1 - s], the
    other fields of the configuration being the same. *)
Theorem inversion_symmetry (config : PlateConfig) (s : Q) :
  0 <= s <= 1 ->
  mapRadius (set_inverted true config) s
  = mapRadius (set_inverted false config) (1 - s).
Proof.
  intros _. reflexivity.
Qed.

Lemma inversion_symmetry_witness :
  mapRadius (set_inverted true DEFAULT_CONFIG) (1 # 4)
  = mapRadius (set_inverted false DEFAULT_CONFIG) (1 - (1 # 4)).
Proof.
  apply (inversion_symmetry DEFAULT_CONFIG (1 # 4)); simpl; lra.
Defined.

(** ** The radius mapping in binary64 *)

Lemma mapRadius_exact (config : PlateConfig) (s : Q) :
  mapRadius config s
  = mapRadius_in exact (minHoleSize config) (maxHoleSize config)
                 (inverted config) s.
Proof.
  reflexivity.
Qed.

(** In exact arithmetic the radius of a sample of [0,1] lies between
    minHoleSize/2 and maxHoleSize/2. *)
Lemma radius_bounds_exact (minHoleSize maxHoleSize : Q) (inverted : bool)
    (luminanceSample : Q) :
  0 <= luminanceSample <= 1 ->
  0 <= minHoleSize <= maxHoleSize ->
  minHoleSize / 2
  <= mapRadius_in exact minHoleSize maxHoleSize inverted luminanceSample
  <= maxHoleSize / 2.
Proof.
  intros Hs Hcfg.
  exact (mapRadius_range
           {| width := 0; height := 0; spacing := 0;
              minHoleSize := minHoleSize; maxHoleSize := maxHoleSize;
              margin := 0; inverted := inverted; threshold := 0;
              shape := circle |} luminanceSample Hs Hcfg).
Qed.

(** *** Under any rounding that keeps the order *)

Section Rounding.

Variable round : Q -> Q.

Hypothesis round_le : forall a b, a <= b -> round a <= round b.
Hypothesis round_0 : round 0 == 0.
Hypothesis round_1 : round 1 == 1.
Hypothesis round_idempotent : forall a, round (round a) == round a.

Lemma round_comp (a b : Q) : a == b -> round a == round b.
Proof.
  intros H. apply Qle_antisym; apply round_le; lra.
Qed.

Lemma round_nonneg (a : Q) : 0 <= a -> 0 <= round a.
Proof.
  intros H. apply Qle_trans with (round 0); [| now apply round_le].
  rewrite round_0. apply Qle_refl.
Qed.

Lemma round_unit (a : Q) : 0 <= a <= 1 -> 0 <= round a <= 1.
Proof.
  intros [H0 H1]. split; [now apply round_nonneg |].
  apply Qle_trans with (round 1); [now apply round_le |].
  rewrite round_1. apply Qle_refl.
Qed.

(** A rounded number is an upper bound of what rounds from below it. *)
Lemma round_below (a b : Q) : a <= round b -> round a <= round b.
Proof.
  intros H. apply Qle_trans with (round (round b)); [now apply round_le |].
  rewrite round_idempotent. apply Qle_refl.
Qed.

Lemma round_above (a b : Q) : round b <= a -> round b <= round a.
Proof.
  intros H. apply Qle_trans with (round (round b)); [| now apply round_le].
  rewrite round_idempotent. apply Qle_refl.
Qed.

Lemma rounded_radiusRange_nonneg (minHoleSize maxHoleSize : Q) :
  minHoleSize <= maxHoleSize ->
  0 <= radiusRange_in (rounded round) minHoleSize maxHoleSize.
Proof.
  intros H. unfold radiusRange_in. cbn [rounded n_div n_sub n_two].
  apply round_nonneg.
  assert (H1 : 0 <= round (maxHoleSize - minHoleSize))
    by (apply round_nonneg; lra).
  qconst. lra.
Qed.

Lemma rounded_radius_of_norm (minHoleSize maxHoleSize norm : Q) :
  0 <= norm <= 1 ->
  minHoleSize <= maxHoleSize ->
  let rr := round (round (maxHoleSize - minHoleSize) / 2) in
  let mr := round (minHoleSize / 2) in
  mr <= round (mr + round (round (1 - norm) * rr)) <= round (mr + rr).
Proof.
  intros Hnorm Hcfg rr mr.
  assert (Hrr : 0 <= rr)
    by exact (rounded_radiusRange_nonneg minHoleSize maxHoleSize Hcfg).
  assert (Hsf : 0 <= round (1 - norm) <= 1) by (apply round_unit; lra).
  set (sf := round (1 - norm)) in *. clearbody sf.
  assert (Hp0 : 0 <= sf * rr) by (apply Qmult_le_0_compat; lra).
  assert (Hp1 : 0 <= (1 - sf) * rr) by (apply Qmult_le_0_compat; lra).
  assert (Hp : 0 <= round (sf * rr) <= rr).
  { split; [now apply round_nonneg |].
    subst rr. apply round_below. lra. }
  split.
  - subst mr. apply round_above. lra.
  - apply round_le. lra.
Qed.

(** The rounded radius lies between the rounded minHoleSize/2 and the
    rounded sum of it and of the radius range. *)
Lemma rounded_radius_bounds (minHoleSize maxHoleSize : Q) (inverted : bool)
    (luminanceSample : Q) :
  0 <= luminanceSample <= 1 ->
  minHoleSize <= maxHoleSize ->
  minRad_in (rounded round) minHoleSize
  <= mapRadius_in (rounded round) minHoleSize maxHoleSize inverted
                  luminanceSample
  <= n_add (rounded round) (minRad_in (rounded round) minHoleSize)
           (radiusRange_in (rounded round) minHoleSize maxHoleSize).
Proof.
  intros Hs Hcfg. destruct inverted.
  - apply (rounded_radius_of_norm minHoleSize maxHoleSize
             (round (1 - luminanceSample))); [| exact Hcfg].
    apply round_unit. lra.
  - exact (rounded_radius_of_norm minHoleSize maxHoleSize luminanceSample
             Hs Hcfg).
Qed.

(** Both ends are radii: that of a white sample and that of a black one. *)
Lemma rounded_radius_attained (minHoleSize maxHoleSize : Q) :
  mapRadius_in (rounded round) minHoleSize maxHoleSize false 1
  == minRad_in (rounded round) minHoleSize
  /\ mapRadius_in (rounded round) minHoleSize maxHoleSize false 0
     == n_add (rounded round) (minRad_in (rounded round) minHoleSize)
              (radiusRange_in (rounded round) minHoleSize maxHoleSize).
Proof.
  unfold mapRadius_in, radiusRange_in, minRad_in. cbv zeta.
  cbn [rounded n_add n_sub n_mul n_div n_one n_two].
  set (rr := round (maxHoleSize - minHoleSize) / 2).
  set (mr := minHoleSize / 2).
  split.
  - assert (H1 : round (1 - 1) == 0).
    { apply Qeq_trans with (round 0); [apply round_comp; ring | exact round_0]. }
    assert (H2 : round (round (1 - 1) * round rr) == 0).
    { apply Qeq_trans with (round 0); [| exact round_0].
      apply round_comp. rewrite H1. ring. }
    apply Qeq_trans with (round (round mr)); [| apply round_idempotent].
    apply round_comp. rewrite H2. ring.
  - assert (H1 : round (1 - 0) == 1).
    { apply Qeq_trans with (round 1); [apply round_comp; ring | exact round_1]. }
    assert (H2 : round (round (1 - 0) * round rr) == round rr).
    { apply Qeq_trans with (round (round rr)); [| apply round_idempotent].
      apply round_comp. rewrite H1. ring. }
    apply round_comp. rewrite H2. reflexivity.
Qed.

End Rounding.

(** *** The rounding to binary64 keeps the order *)

Lemma pow2_pos (e : Z) : 0 < 2 ^ e.
Proof. apply Qpower_0_lt. reflexivity. Qed.

Lemma pow2_add (a b : Z) : 2 ^ (a + b) == 2 ^ a * 2 ^ b.
Proof. apply Qpower_plus. discriminate. Qed.

Lemma pow2_le (a b : Z) : (a <= b)%Z -> 2 ^ a <= 2 ^ b.
Proof. intros H. apply Qpower_le_compat_l; [exact H | discriminate]. Qed.

Lemma pow2_lt (a b : Z) : (a < b)%Z -> 2 ^ a < 2 ^ b.
Proof. intros H. apply Qpower_lt_compat_l; [exact H | reflexivity]. Qed.

Lemma pow2_lt_inv (a b : Z) : 2 ^ a < 2 ^ b -> (a < b)%Z.
Proof. intros H. apply (Qpower_lt_compat_l_inv 2); [exact H | reflexivity]. Qed.

Lemma pow2_Z (a : Z) : (0 <= a)%Z -> 2 ^ a == inject_Z (2 ^ a).
Proof. intros H. now rewrite Zpower_Qpower. Qed.

Lemma ilog2_spec (q : Q) : 0 < q -> 2 ^ ilog2 q <= q /\ q < 2 ^ (ilog2 q + 1).
Proof.
  intros Hq. destruct q as [n d]. unfold ilog2. cbn [Qnum Qden].
  assert (Hn : (0 < n)%Z).
  { unfold Qlt in Hq. simpl in Hq. lia. }
  set (a := Z.log2 n). set (b := Z.log2 (Zpos d)).
  assert (Ha : (2 ^ a <= n < 2 ^ (a + 1))%Z).
  { subst a. apply Z.log2_spec. exact Hn. }
  assert (Hb : (2 ^ b <= Zpos d < 2 ^ (b + 1))%Z).
  { subst b. apply Z.log2_spec. reflexivity. }
  assert (Ha0 : (0 <= a)%Z) by apply Z.log2_nonneg.
  assert (Hb0 : (0 <= b)%Z) by apply Z.log2_nonneg.
  assert (Hlow : 2 ^ (a - b - 1) < n # d).
  { replace (a - b - 1)%Z with (a - (b + 1))%Z by lia.
    rewrite Qpower_minus by discriminate.
    rewrite !pow2_Z by lia.
    apply Qlt_shift_div_r.
    - change 0 with (inject_Z 0). rewrite <- Zlt_Qlt. lia.
    - unfold Qlt, Qmult, inject_Z. simpl. nia. }
  assert (Hhigh : n # d < 2 ^ (a - b + 1)).
  { replace (a - b + 1)%Z with (a + 1 - b)%Z by lia.
    rewrite Qpower_minus by discriminate.
    rewrite !pow2_Z by lia.
    apply Qlt_shift_div_l.
    - change 0 with (inject_Z 0). rewrite <- Zlt_Qlt. lia.
    - unfold Qlt, Qmult, inject_Z. simpl. nia. }
  destruct (Qle_bool (2 ^ (a - b)) (n # d)) eqn:E.
  - apply Qle_bool_iff in E. split; assumption.
  - assert (E' : n # d < 2 ^ (a - b)).
    { apply Qnot_le_lt. intros H. apply Qle_bool_iff in H. congruence. }
    replace (a - b - 1 + 1)%Z with (a - b)%Z by lia.
    split; [apply Qlt_le_weak; exact Hlow | exact E'].
Qed.

Lemma roundEven_bounds (q : Q) :
  (Qfloor q <= roundEven q <= Qfloor q + 1)%Z.
Proof.
  unfold roundEven. cbv zeta.
  destruct (Qcompare (q - inject_Z (Qfloor q)) (1 # 2));
    [destruct (Z.even (Qfloor q)) | |]; lia.
Qed.

Lemma roundEven_Z (n : Z) : roundEven (inject_Z n) = n.
Proof.
  unfold roundEven. cbv zeta. rewrite Qfloor_Z.
  assert (H : Qcompare (inject_Z n - inject_Z n) (1 # 2) = Lt)
    by (rewrite <- Qlt_alt; lra).
  now rewrite H.
Qed.

Lemma roundEven_comp (a b : Q) : a == b -> roundEven a = roundEven b.
Proof.
  intros H. unfold roundEven. cbv zeta. rewrite (Qfloor_comp a b H).
  assert (E : Qcompare (a - inject_Z (Qfloor b)) (1 # 2)
              = Qcompare (b - inject_Z (Qfloor b)) (1 # 2)).
  { apply Qcompare_comp; [rewrite H |]; reflexivity. }
  now rewrite E.
Qed.

Ltac compare_facts :=
  repeat match goal with
  | H : Qcompare _ _ = Eq |- _ => rewrite <- Qeq_alt in H
  | H : Qcompare _ _ = Lt |- _ => rewrite <- Qlt_alt in H
  | H : Qcompare _ _ = Gt |- _ => rewrite <- Qgt_alt in H
  end.

Lemma roundEven_le (a b : Q) : a <= b -> (roundEven a <= roundEven b)%Z.
Proof.
  intros Hab.
  assert (Hf := Qfloor_resp_le a b Hab).
  destruct (Z.eq_dec (Qfloor a) (Qfloor b)) as [E | E].
  - unfold roundEven. cbv zeta. rewrite E.
    destruct (Qcompare (a - inject_Z (Qfloor b)) (1 # 2)) eqn:Ea;
      destruct (Qcompare (b - inject_Z (Qfloor b)) (1 # 2)) eqn:Eb;
      try destruct (Z.even (Qfloor b)); compare_facts;
      first [lia | exfalso; lra].
  - assert (H1 := roundEven_bounds a). assert (H2 := roundEven_bounds b). lia.
Qed.

(** An integer bound on a rational passes to its rounding. *)
Lemma roundEven_le_Z (q : Q) (n : Z) : q <= inject_Z n -> (roundEven q <= n)%Z.
Proof.
  intros H. rewrite <- (roundEven_Z n). now apply roundEven_le.
Qed.

Lemma roundEven_ge_Z (q : Q) (n : Z) : inject_Z n <= q -> (n <= roundEven q)%Z.
Proof.
  intros H. rewrite <- (roundEven_Z n). now apply roundEven_le.
Qed.

(** The exponent of the last place grows with the number. *)

Lemma ilog2_le (a b : Q) : 0 < a -> a <= b -> (ilog2 a <= ilog2 b)%Z.
Proof.
  intros Ha Hab.
  destruct (ilog2_spec a Ha) as [Ha1 _].
  destruct (ilog2_spec b ltac:(lra)) as [_ Hb2].
  assert (H : 2 ^ ilog2 a < 2 ^ (ilog2 b + 1)) by lra.
  apply pow2_lt_inv in H. lia.
Qed.

(** Below a power of two, the logarithm is below its exponent. *)
Lemma ilog2_lt (q : Q) (e : Z) : 0 < q -> q < 2 ^ e -> (ilog2 q < e)%Z.
Proof.
  intros Hq H. destruct (ilog2_spec q Hq) as [H1 _].
  apply pow2_lt_inv. lra.
Qed.

Lemma ulpExponent_le (a b : Q) :
  0 < a -> a <= b -> (ulpExponent a <= ulpExponent b)%Z.
Proof.
  intros Ha Hab. unfold ulpExponent. assert (H := ilog2_le a b Ha Hab). lia.
Qed.

Lemma scale_div (q : Q) (e : Z) : q / 2 ^ e * 2 ^ e == q.
Proof.
  field. intros H. assert (H0 := pow2_pos e). lra.
Qed.

(** The significand of a positive number: below 2^53. *)
Lemma significand_lt (q : Q) :
  0 < q -> q / 2 ^ ulpExponent q < inject_Z (2 ^ 53).
Proof.
  intros Hq. destruct (ilog2_spec q Hq) as [_ H].
  apply Qlt_shift_div_r; [apply pow2_pos |].
  rewrite <- pow2_Z by lia. rewrite <- pow2_add.
  eapply Qlt_le_trans; [exact H |]. apply pow2_le. unfold ulpExponent. lia.
Qed.

(** The significand of a normal number: at least 2^52. *)
Lemma significand_ge (q : Q) :
  0 < q -> (-1074 < ulpExponent q)%Z ->
  inject_Z (2 ^ 52) <= q / 2 ^ ulpExponent q.
Proof.
  intros Hq He. destruct (ilog2_spec q Hq) as [H _].
  apply Qle_shift_div_l; [apply pow2_pos |].
  rewrite <- pow2_Z by lia. rewrite <- pow2_add.
  eapply Qle_trans; [| exact H]. apply pow2_le. unfold ulpExponent in *. lia.
Qed.

Lemma roundPositive_nonneg (q : Q) : 0 < q -> 0 <= roundPositive q.
Proof.
  intros Hq. unfold roundPositive. cbv zeta.
  apply Qmult_le_0_compat; [| apply Qlt_le_weak, pow2_pos].
  change 0 with (inject_Z 0). rewrite <- Zle_Qle.
  apply roundEven_ge_Z. apply Qle_shift_div_l; [apply pow2_pos |].
  change (inject_Z 0) with 0. rewrite Qmult_0_l. lra.
Qed.

Lemma roundPositive_le (a b : Q) :
  0 < a -> a <= b -> roundPositive a <= roundPositive b.
Proof.
  intros Ha Hab. assert (Hb : 0 < b) by lra.
  assert (He := ulpExponent_le a b Ha Hab).
  unfold roundPositive. cbv zeta.
  destruct (Z.eq_dec (ulpExponent a) (ulpExponent b)) as [E | E].
  - rewrite E. apply Qmult_le_compat_r; [| apply Qlt_le_weak, pow2_pos].
    rewrite <- Zle_Qle. apply roundEven_le.
    apply Qmult_le_compat_r; [exact Hab |].
    apply Qlt_le_weak, Qinv_lt_0_compat, pow2_pos.
  - apply Qle_trans with (2 ^ (ulpExponent a + 53)).
    + rewrite pow2_add, (Qmult_comm (2 ^ ulpExponent a)).
      apply Qmult_le_compat_r; [| apply Qlt_le_weak, pow2_pos].
      rewrite (pow2_Z 53) by lia. rewrite <- Zle_Qle.
      apply roundEven_le_Z, Qlt_le_weak, significand_lt, Ha.
    + apply Qle_trans with (2 ^ (ulpExponent b + 52)).
      * apply pow2_le. lia.
      * rewrite pow2_add, (Qmult_comm (2 ^ ulpExponent b)).
        apply Qmult_le_compat_r; [| apply Qlt_le_weak, pow2_pos].
        rewrite pow2_Z by lia. rewrite <- Zle_Qle.
        apply roundEven_ge_Z, significand_ge; [exact Hb |].
        unfold ulpExponent in *. lia.
Qed.

Lemma roundPositive_comp (a b : Q) :
  0 < a -> a == b -> roundPositive a == roundPositive b.
Proof.
  intros Ha Hab. apply Qle_antisym; apply roundPositive_le; lra.
Qed.

(** A number with a significand below 2^53 at an exponent of the format is
    its own rounding. *)
Lemma roundPositive_fixed (m e : Z) :
  (0 < m < 2 ^ 53)%Z -> (-1074 <= e)%Z ->
  roundPositive (inject_Z m * 2 ^ e) == inject_Z m * 2 ^ e.
Proof.
  intros Hm He. set (q := inject_Z m * 2 ^ e).
  assert (Hq : 0 < q).
  { subst q. apply Qmult_lt_0_compat; [| apply pow2_pos].
    change 0 with (inject_Z 0). rewrite <- Zlt_Qlt. lia. }
  assert (Hlt : q < 2 ^ (e + 53)).
  { subst q. rewrite pow2_add, (Qmult_comm (2 ^ e)).
    apply Qmult_lt_compat_r; [apply pow2_pos |].
    rewrite (pow2_Z 53) by lia. rewrite <- Zlt_Qlt. lia. }
  assert (Hc : (ulpExponent q <= e)%Z).
  { assert (H := ilog2_lt q (e + 53) Hq Hlt). unfold ulpExponent. lia. }
  unfold roundPositive. cbv zeta. set (c := ulpExponent q) in *.
  assert (Hdiv : q / 2 ^ c == inject_Z (m * 2 ^ (e - c))).
  { subst q. rewrite inject_Z_mult, <- pow2_Z by lia.
    replace e with ((e - c) + c)%Z at 1 by lia. rewrite pow2_add.
    field. intros H. assert (H0 := pow2_pos c). lra. }
  rewrite (roundEven_comp _ _ Hdiv), roundEven_Z.
  rewrite inject_Z_mult, <- pow2_Z by lia. subst q.
  replace e with ((e - c) + c)%Z at 2 by lia. rewrite pow2_add. ring.
Qed.

Lemma roundPositive_idempotent (q : Q) :
  0 < q -> 0 < roundPositive q ->
  roundPositive (roundPositive q) == roundPositive q.
Proof.
  intros Hq Hr. unfold roundPositive at 2 3. cbv zeta.
  unfold roundPositive in Hr. cbv zeta in Hr.
  set (c := ulpExponent q) in *. set (m := roundEven (q / 2 ^ c)) in *.
  assert (Hc : (-1074 <= c)%Z) by (subst c; unfold ulpExponent; lia).
  assert (Hm53 : (m <= 2 ^ 53)%Z).
  { subst m c. apply roundEven_le_Z, Qlt_le_weak, significand_lt, Hq. }
  assert (Hm0 : (0 < m)%Z).
  { destruct (Z.lt_ge_cases 0 m) as [H | H]; [exact H | exfalso].
    assert (H1 : inject_Z m <= 0).
    { change 0 with (inject_Z 0). rewrite <- Zle_Qle. exact H. }
    assert (H2 := pow2_pos c).
    assert (H3 : 0 <= - inject_Z m * 2 ^ c)
      by (apply Qmult_le_0_compat; lra).
    lra. }
  destruct (Z.eq_dec m (2 ^ 53)) as [E | E].
  - assert (Hr' : inject_Z m * 2 ^ c == inject_Z (2 ^ 52) * 2 ^ (c + 1)).
    { rewrite E, pow2_add, <- !pow2_Z by lia.
      rewrite <- !pow2_add. replace (53 + c)%Z with (52 + (c + 1))%Z by lia.
      rewrite !pow2_add. reflexivity. }
    rewrite (roundPositive_comp _ _ Hr Hr'), Hr'.
    apply roundPositive_fixed; lia.
  - apply roundPositive_fixed; lia.
Qed.

Lemma round64_0 : round64 0 == 0.
Proof.
  reflexivity.
Qed.

Lemma round64_1 : round64 1 == 1.
Proof.
  vm_compute. reflexivity.
Qed.

Lemma round64_le (a b : Q) : a <= b -> round64 a <= round64 b.
Proof.
  intros Hab. unfold round64.
  destruct (Qcompare a 0) eqn:Ea; destruct (Qcompare b 0) eqn:Eb;
    compare_facts; try lra.
  - apply roundPositive_nonneg. exact Eb.
  - assert (H := roundPositive_nonneg (- a) ltac:(lra)). lra.
  - assert (H := roundPositive_le (- b) (- a) ltac:(lra) ltac:(lra)). lra.
  - assert (H1 := roundPositive_nonneg (- a) ltac:(lra)).
    assert (H2 := roundPositive_nonneg b Eb). lra.
  - apply roundPositive_le; assumption.
Qed.

Lemma round64_comp (a b : Q) : a == b -> round64 a == round64 b.
Proof.
  intros H. apply Qle_antisym; apply round64_le; lra.
Qed.

Lemma round64_idempotent (q : Q) : round64 (round64 q) == round64 q.
Proof.
  unfold round64 at 2 3.
  destruct (Qcompare q 0) eqn:Eq0; compare_facts.
  - reflexivity.
  - assert (Hr := roundPositive_nonneg (- q) ltac:(lra)).
    set (r := roundPositive (- q)) in *.
    unfold round64. destruct (Qcompare (- r) 0) eqn:Er; compare_facts.
    + lra.
    + assert (E : - - r == r) by ring.
      rewrite (roundPositive_comp (- - r) r ltac:(lra) E).
      subst r. rewrite roundPositive_idempotent; [reflexivity | lra | lra].
    + lra.
  - assert (Hr := roundPositive_nonneg q Eq0).
    set (r := roundPositive q) in *.
    unfold round64. destruct (Qcompare r 0) eqn:Er; compare_facts.
    + lra.
    + lra.
    + subst r. apply roundPositive_idempotent; assumption.
Qed.

(** *** The error of a rounding *)

Lemma roundEven_error (z : Q) :
  z - (1 # 2) <= inject_Z (roundEven z) <= z + (1 # 2).
Proof.
  unfold roundEven. cbv zeta.
  assert (Hf := Qfloor_le z). assert (Hc := Qlt_floor z).
  rewrite inject_Z_plus in Hc. change (inject_Z 1) with 1 in Hc.
  destruct (Qcompare (z - inject_Z (Qfloor z)) (1 # 2)) eqn:E;
    [destruct (Z.even (Qfloor z)) | |]; compare_facts;
    rewrite ?inject_Z_plus; change (inject_Z 1) with 1; lra.
Qed.

Lemma pow2_half (e : Z) : 2 ^ e * (1 # 2) == 2 ^ (e - 1).
Proof.
  unfold Z.sub. rewrite pow2_add. reflexivity.
Qed.

(** Half a unit in the last place of a positive [q]: at most [q] times
    2^-53, or 2^-1075 where the floats are subnormal. *)
Lemma half_ulp (q : Q) :
  0 < q -> 2 ^ (ulpExponent q - 1) <= q * 2 ^ (-53) + 2 ^ (-1075).
Proof.
  intros Hq. destruct (ilog2_spec q Hq) as [Hlog _].
  assert (Hu := pow2_pos (-53)). assert (Heta := pow2_pos (-1075)).
  assert (Hqu : 0 <= q * 2 ^ (-53)) by (apply Qmult_le_0_compat; lra).
  unfold ulpExponent.
  destruct (Z.max_spec (ilog2 q - 52) (-1074)) as [[_ ->] | [_ ->]].
  - change (-1074 - 1)%Z with (-1075)%Z. lra.
  - replace (ilog2 q - 52 - 1)%Z with (ilog2 q + -53)%Z by lia.
    rewrite pow2_add.
    assert (H : 2 ^ ilog2 q * 2 ^ (-53) <= q * 2 ^ (-53))
      by (apply Qmult_le_compat_r; lra).
    lra.
Qed.

Lemma roundPositive_error (q : Q) :
  0 < q ->
  q - (q * 2 ^ (-53) + 2 ^ (-1075)) <= roundPositive q
  <= q + (q * 2 ^ (-53) + 2 ^ (-1075)).
Proof.
  intros Hq. assert (Hhalf := half_ulp q Hq).
  unfold roundPositive. cbv zeta.
  set (e := ulpExponent q) in *.
  destruct (roundEven_error (q / 2 ^ e)) as [Hlo Hhi].
  assert (He := pow2_pos e).
  assert (H1 : (q / 2 ^ e - (1 # 2)) * 2 ^ e
               <= inject_Z (roundEven (q / 2 ^ e)) * 2 ^ e)
    by (apply Qmult_le_compat_r; lra).
  assert (H2 : inject_Z (roundEven (q / 2 ^ e)) * 2 ^ e
               <= (q / 2 ^ e + (1 # 2)) * 2 ^ e)
    by (apply Qmult_le_compat_r; lra).
  assert (H3 : (q / 2 ^ e - (1 # 2)) * 2 ^ e == q - 2 ^ (e - 1)).
  { rewrite <- pow2_half. field. lra. }
  assert (H4 : (q / 2 ^ e + (1 # 2)) * 2 ^ e == q + 2 ^ (e - 1)).
  { rewrite <- pow2_half. field. lra. }
  lra.
Qed.

(** The rounding of a non-negative number is off by at most its 2^-53rd
    part and 2^-1075. *)
Lemma round64_error (q : Q) :
  0 <= q ->
  q * (1 - 2 ^ (-53)) - 2 ^ (-1075) <= round64 q
  <= q * (1 + 2 ^ (-53)) + 2 ^ (-1075).
Proof.
  intros Hq. unfold round64.
  assert (Hu := pow2_pos (-53)). assert (Heta := pow2_pos (-1075)).
  assert (Hqu : 0 <= q * 2 ^ (-53)) by (apply Qmult_le_0_compat; lra).
  destruct (Qcompare q 0) eqn:E; compare_facts.
  - lra.
  - lra.
  - assert (H := roundPositive_error q E). lra.
Qed.

(** The sum minHoleSize/2 + (maxHoleSize - minHoleSize)/2 under a rounding
    whose error on [q >= 0] is at most [q * u + eta]: three roundings lie
    between maxHoleSize/2 and the sum. *)
Section RoundingError.

Variable round : Q -> Q.
Variables u eta : Q.

Hypothesis round_le : forall a b, a <= b -> round a <= round b.
Hypothesis round_0 : round 0 == 0.
Hypothesis u_range : 0 <= u <= 1 # 8.
Hypothesis eta_nonneg : 0 <= eta.
Hypothesis round_error : forall q, 0 <= q -> round q <= q * (1 + u) + eta.

Lemma rounded_upper_end (minHoleSize maxHoleSize : Q) :
  0 <= minHoleSize <= maxHoleSize ->
  n_add (rounded round) (minRad_in (rounded round) minHoleSize)
        (radiusRange_in (rounded round) minHoleSize maxHoleSize)
  <= maxHoleSize / 2 * ((1 + u) * (1 + u) * (1 + u)) + 4 * eta.
Proof.
  intros [Hmin Hmax].
  unfold minRad_in, radiusRange_in. cbn [rounded n_add n_sub n_div n_two].
  set (t := 1 + u). assert (Ht : 1 <= t <= 9 # 8) by (subst t; lra).
  assert (Herr : forall q, 0 <= q -> round q <= q * t + eta)
    by exact round_error.
  assert (Hnn := round_nonneg round round_le round_0).
  clearbody t.
  set (a := round (minHoleSize / 2)).
  set (d := round (maxHoleSize - minHoleSize)).
  set (rr := round (d / 2)).
  assert (Ha0 : 0 <= a) by (apply Hnn; qconst; lra).
  assert (Hd0 : 0 <= d) by (apply Hnn; lra).
  assert (Hrr0 : 0 <= rr) by (apply Hnn; qconst; lra).
  assert (Ha : a <= minHoleSize / 2 * t + eta) by (apply Herr; qconst; lra).
  assert (Hd : d <= (maxHoleSize - minHoleSize) * t + eta) by (apply Herr; lra).
  assert (Hrr : rr <= d / 2 * t + eta) by (apply Herr; qconst; lra).
  assert (Hhi : round (a + rr) <= (a + rr) * t + eta) by (apply Herr; lra).
  clearbody a d rr.
  set (m := minHoleSize) in *. set (M := maxHoleSize) in *.
  assert (Ht0 : 0 <= t) by lra.
  assert (Htt : 0 <= t * t) by (apply Qmult_le_0_compat; lra).
  assert (P1 : 0 <= ((M - m) * t + eta - d) * (t * t))
    by (apply Qmult_le_0_compat; lra).
  assert (P2 : 0 <= (m / 2 * t + eta - a) * t)
    by (apply Qmult_le_0_compat; lra).
  assert (P3 : 0 <= (d / 2 * t + eta - rr) * t)
    by (apply Qmult_le_0_compat; lra).
  assert (P4 : 0 <= m * (t * t) * (t - 1)).
  { apply Qmult_le_0_compat; [apply Qmult_le_0_compat |]; lra. }
  assert (E1 : 0 <= eta * ((9 # 8) - t)) by (apply Qmult_le_0_compat; lra).
  assert (E2 : 0 <= eta * t * ((9 # 8) - t)).
  { apply Qmult_le_0_compat; [apply Qmult_le_0_compat |]; lra. }
  qconst. lra.
Qed.

End RoundingError.

(** C1 (radius bounds): in the arithmetic of the machine, each operation
    rounded to binary64, the radius the mapping computes for a luminance
    sample of [0,1] and hole sizes with 0 <= minHoleSize <= maxHoleSize lies
    between minHoleSize/2 and the sum minHoleSize/2 + (maxHoleSize -
    minHoleSize)/2, both as the machine computes them and both included:
    the radii of a white and of a black sample.  These are minHoleSize/2
    and maxHoleSize/2 up to the roundings: the first is at least
    minHoleSize/2 less its 2^-53rd part and 2^-1075, the second at most
    maxHoleSize/2 times (1 + 2^-53)^3, for its three roundings, and
    2^-1073.  In exact arithmetic they are minHoleSize/2 and maxHoleSize/2
    themselves ([radius_bounds_exact]). *)
Theorem radius_bounds_binary64 (minHoleSize maxHoleSize : Q) (inverted : bool)
    (luminanceSample : Q) :
  0 <= luminanceSample <= 1 ->
  0 <= minHoleSize <= maxHoleSize ->
  let radius :=
    mapRadius_in (rounded round64) minHoleSize maxHoleSize inverted
                 luminanceSample in
  let white := minRad_in (rounded round64) minHoleSize in
  let black :=
    n_add (rounded round64) white
          (radiusRange_in (rounded round64) minHoleSize maxHoleSize) in
  white <= radius <= black
  /\ minHoleSize / 2 * (1 - 2 ^ (-53)) - 2 ^ (-1075) <= white
  /\ black <= maxHoleSize / 2 * (1 + 2 ^ (-53)) ^ 3 + 2 ^ (-1073).
Proof.
  intros Hs [Hmin Hcfg] radius white black. split; [| split].
  - apply (rounded_radius_bounds round64 round64_le round64_0 round64_1
             round64_idempotent); assumption.
  - subst white. unfold minRad_in. cbn [rounded n_div n_two].
    apply round64_error. qconst. lra.
  - assert (H := rounded_upper_end round64 (2 ^ (-53)) (2 ^ (-1075))
                   round64_le round64_0).
    assert (Hu : 0 <= 2 ^ (-53) <= 1 # 8).
    { split; [apply Qlt_le_weak, pow2_pos |].
      change (1 # 8) with (2 ^ (-3)). apply pow2_le. lia. }
    assert (Heta : 4 * 2 ^ (-1075) == 2 ^ (-1073)).
    { change 4 with (2 ^ 2). rewrite <- pow2_add. reflexivity. }
    specialize (H Hu (Qlt_le_weak _ _ (pow2_pos (-1075)))
                  (fun q Hq => proj2 (round64_error q Hq))
                  minHoleSize maxHoleSize (conj Hmin Hcfg)).
    assert (Hcube : (1 + 2 ^ (-53)) ^ 3
                    == (1 + 2 ^ (-53)) * (1 + 2 ^ (-53)) * (1 + 2 ^ (-53)))
      by (simpl; ring).
    subst black white. rewrite Hcube, <- Heta. exact H.
Qed.

(** The hole sizes 0.3 and 0.9, as floats, and a black sample. *)
Lemma radius_bounds_binary64_witness :
  let minHole := round64 0.3 in
  let maxHole := round64 0.9 in
  let radius := mapRadius_in (rounded round64) minHole maxHole false 0 in
  let white := minRad_in (rounded round64) minHole in
  let black :=
    n_add (rounded round64) white
          (radiusRange_in (rounded round64) minHole maxHole) in
  white <= radius <= black
  /\ minHole / 2 * (1 - 2 ^ (-53)) - 2 ^ (-1075) <= white
  /\ black <= maxHole / 2 * (1 + 2 ^ (-53)) ^ 3 + 2 ^ (-1073).
Proof.
  intros minHole maxHole.
  apply (radius_bounds_binary64 minHole maxHole false 0).
  - split; discriminate.
  - split; vm_compute; discriminate.
Defined.

(** The bound maxHoleSize/2 itself fails in binary64: with the hole sizes
    0.3 and 0.9 the radius of a black sample is 0.45000000000000007, above
    0.9/2 = 0.45. *)
Lemma radius_above_half_max :
  let minHole := Binary64.of_Q 0.3 in
  let maxHole := Binary64.of_Q 0.9 in
  let radius :=
    mapRadius_in Binary64.arithmetic minHole maxHole false (Binary64.of_Q 0) in
  Binary64.gt radius
    (n_div Binary64.arithmetic maxHole (n_two Binary64.arithmetic))
  = true.
Proof.
  vm_compute. reflexivity.
Qed.

(** On this input the rationals rounded by [round64] are the floats: the
    hole sizes, the radius, and half the larger hole size, below the
    radius. *)
Lemma rounded_agrees_with_floats :
  let minHole := round64 0.3 in
  let maxHole := round64 0.9 in
  let radius := mapRadius_in (rounded round64) minHole maxHole false 0 in
  Binary64.same (Binary64.of_Q 0.3) minHole = true
  /\ Binary64.same (Binary64.of_Q 0.9) maxHole = true
  /\ Binary64.same
       (mapRadius_in Binary64.arithmetic (Binary64.of_Q 0.3)
                     (Binary64.of_Q 0.9) false (Binary64.of_Q 0))
       radius = true
  /\ n_div (rounded round64) maxHole 2 < radius.
Proof.
  vm_compute. repeat split.
Qed.

(** The same numbers as written in the source: the floats of the literals
    0.3 and 0.9, their half-difference, and the radius of the black
    sample, with 0.45 for comparison. *)
Module Binary64Literals.

Import PrimFloat.

#[local] Set Warnings "-inexact-float".

Lemma literals_of_the_example :
  eqb (Binary64.of_Q 0.3) 0.3 = true
  /\ eqb (Binary64.of_Q 0.9) 0.9 = true
  /\ eqb (radiusRange_in Binary64.arithmetic 0.3%float 0.9%float)
         0.30000000000000004 = true
  /\ eqb (mapRadius_in Binary64.arithmetic 0.3%float 0.9%float false 0%float)
         0.45000000000000007 = true
  /\ eqb (0.9 / 2) 0.45 = true
  /\ ltb 0.45 0.45000000000000007 = true.
Proof.
  vm_compute. repeat split.
Qed.

End Binary64Literals.

(** ** The loops, as the list of the cells' dots *)

Section Loops.

Variables (config : PlateConfig) (data : list byte).

Lemma push_app (acc : list Dot) (d : option Dot) :
  push acc d = acc ++ dotList d.
Proof.
  destruct d; simpl; [reflexivity | now rewrite app_nil_r].
Qed.

Lemma fold_left_append {A B : Type} (f : A -> list B) (l : list A) :
  forall acc, fold_left (fun acc a => acc ++ f a) l acc = acc ++ flat_map f l.
Proof.
  induction l as [| a l IH]; intros acc; simpl.
  - now rewrite app_nil_r.
  - rewrite IH. now rewrite <- app_assoc.
Qed.

Lemma fold_left_pointwise {A B : Type} (f g : A -> B -> A) (l : list B) :
  (forall a b, f a b = g a b) ->
  forall acc, fold_left f l acc = fold_left g l acc.
Proof.
  intros Hfg. induction l as [| b l IH]; intros acc; simpl.
  - reflexivity.
  - now rewrite Hfg, IH.
Qed.

Lemma processRow_app (ncols : Z) (yi : nat) (acc : list Dot) :
  processRow config data ncols yi acc = acc ++ rowDots config data ncols yi.
Proof.
  unfold processRow, rowDots.
  rewrite <- fold_left_append.
  apply fold_left_pointwise. intros a xi. apply push_app.
Qed.

Lemma processRows_app (ncols : Z) (y0 n : nat) (acc : list Dot) :
  processRows config data ncols y0 n acc
  = acc ++ flat_map (rowDots config data ncols) (seq y0 n).
Proof.
  unfold processRows.
  rewrite <- fold_left_append.
  apply fold_left_pointwise. intros a yi. apply processRow_app.
Qed.

Lemma processRows_split (ncols : Z) (y0 n m : nat) (acc : list Dot) :
  processRows config data ncols y0 (n + m) acc
  = processRows config data ncols (y0 + n) m
      (processRows config data ncols y0 n acc).
Proof.
  unfold processRows. now rewrite seq_app, fold_left_app.
Qed.

Lemma generate_rows :
  generate config data
  = flat_map (rowDots config data (cols config))
             (seq 0 (Z.to_nat (rows config))).
Proof.
  unfold generate. now rewrite processRows_app.
Qed.

Lemma in_dotList (o : option Dot) (d : Dot) : In d (dotList o) <-> o = Some d.
Proof.
  destruct o as [d' |]; simpl; split.
  - intros [-> | []]. reflexivity.
  - intros [= ->]. now left.
  - intros [].
  - discriminate.
Qed.

Lemma in_rowDots (ncols : Z) (yi : nat) (d : Dot) :
  In d (rowDots config data ncols yi) <->
  exists xi, (xi < Z.to_nat ncols)%nat /\
             cellDot config data ncols yi xi = Some d.
Proof.
  unfold rowDots. rewrite in_flat_map. split.
  - intros (xi & Hin & Hd). exists xi. apply in_seq in Hin.
    apply in_dotList in Hd. split; [lia | exact Hd].
  - intros (xi & Hlt & Hd). exists xi. split.
    + apply in_seq. lia.
    + now apply in_dotList.
Qed.

(** Every dot of a run is the dot of a cell of the grid. *)
Lemma in_generate (d : Dot) :
  In d (generate config data) <->
  exists yi xi, (yi < Z.to_nat (rows config))%nat /\
                (xi < Z.to_nat (cols config))%nat /\
                cellDot config data (cols config) yi xi = Some d.
Proof.
  rewrite generate_rows, in_flat_map. split.
  - intros (yi & Hin & Hd). apply in_seq in Hin.
    apply in_rowDots in Hd. destruct Hd as (xi & Hx & Hd).
    exists yi, xi. repeat split; [lia | exact Hx | exact Hd].
  - intros (yi & xi & Hy & Hx & Hd). exists yi. split.
    + apply in_seq. lia.
    + apply in_rowDots. now exists xi.
Qed.

Lemma cellDot_some (ncols : Z) (yi xi : nat) (d : Dot) :
  cellDot config data ncols yi xi = Some d ->
  exists s, sample data (cellIndex ncols yi xi) = Some s /\
            above_cutoff (mapRadius config s) = true /\
            d = {| x := physX config xi; y := physY config yi;
                   r := mapRadius config s |}.
Proof.
  unfold cellDot. destruct (sample data (cellIndex ncols yi xi)) as [s |].
  - cbv zeta. destruct (above_cutoff (mapRadius config s)) eqn:Hcut.
    + intros [= <-]. now exists s.
    + discriminate.
  - discriminate.
Qed.

Lemma above_cutoff_iff (radius : Q) :
  above_cutoff radius = true <-> 0.1 < radius.
Proof.
  unfold above_cutoff. rewrite negb_true_iff.
  destruct (Qle_bool radius 0.1) eqn:E.
  - apply Qle_bool_iff in E. split; [discriminate | intros H; lra].
  - split; [intros _ | reflexivity].
    apply Qnot_le_lt. intros H. apply Qle_bool_iff in H. congruence.
Qed.

End Loops.

(** ** The emission cutoff *)

(** C7 (emission cutoff): for every configuration and pixel buffer, every dot
    of the run has a radius strictly above 0.1 mm, and a cell whose radius is
    at most 0.1 mm pushes no dot. *)
Theorem emission_cutoff (config : PlateConfig) (data : list byte) :
  Forall (fun d => 0.1 < r d) (generate config data)
  /\ (forall yi xi s,
        sample data (cellIndex (cols config) yi xi) = Some s ->
        mapRadius config s <= 0.1 ->
        cellDot config data (cols config) yi xi = None).
Proof.
  split.
  - apply Forall_forall. intros d Hd.
    apply in_generate in Hd. destruct Hd as (yi & xi & _ & _ & Hd).
    apply cellDot_some in Hd. destruct Hd as (s & _ & Hcut & ->).
    simpl. now apply above_cutoff_iff.
  - intros yi xi s Hs Hr. unfold cellDot. rewrite Hs. cbv zeta.
    destruct (above_cutoff (mapRadius config s)) eqn:Hcut; [| reflexivity].
    apply above_cutoff_iff in Hcut. lra.
Qed.

Lemma emission_cutoff_witness :
  cellDot faint_config [xff; xff; xff; xff] (cols faint_config) 0 0 = None.
Proof.
  eapply (proj2 (emission_cutoff faint_config [xff; xff; xff; xff]) 0%nat 0%nat).
  - vm_compute. reflexivity.
  - vm_compute. discriminate.
Defined.

(** ** Row-major order *)

Lemma StronglySorted_app {A : Type} (R : A -> A -> Prop) (l1 l2 : list A) :
  StronglySorted R l1 -> StronglySorted R l2 ->
  (forall a b, In a l1 -> In b l2 -> R a b) ->
  StronglySorted R (l1 ++ l2).
Proof.
  intros H1 H2 H12. induction H1 as [| a l1 Hl1 IH Ha]; simpl.
  - exact H2.
  - constructor.
    + apply IH. intros a' b Ha' Hb. apply H12; [now right | exact Hb].
    + apply Forall_app. split; [exact Ha |].
      apply Forall_forall. intros b Hb. apply H12; [now left | exact Hb].
Qed.

Lemma StronglySorted_flat_map {A B : Type} (R : A -> A -> Prop)
    (R' : B -> B -> Prop) (f : A -> list B) (l : list A) :
  StronglySorted R l ->
  (forall a, StronglySorted R' (f a)) ->
  (forall a b da db, R a b -> In da (f a) -> In db (f b) -> R' da db) ->
  StronglySorted R' (flat_map f l).
Proof.
  intros Hl Hf HR. induction Hl as [| a l Hl IH Ha]; simpl.
  - constructor.
  - apply StronglySorted_app; [apply Hf | exact IH |].
    intros da db Hda Hdb. apply in_flat_map in Hdb.
    destruct Hdb as (b & Hb & Hdb).
    rewrite Forall_forall in Ha. exact (HR a b da db (Ha b Hb) Hda Hdb).
Qed.

Lemma StronglySorted_seq (start len : nat) :
  StronglySorted lt (seq start len).
Proof.
  revert start. induction len as [| len IH]; intros start; simpl.
  - constructor.
  - constructor; [apply IH |].
    apply Forall_forall. intros b Hb. apply in_seq in Hb. lia.
Qed.

Lemma StronglySorted_dotList (R : Dot -> Dot -> Prop) (o : option Dot) :
  StronglySorted R (dotList o).
Proof.
  destruct o; simpl; repeat constructor.
Qed.

Lemma inject_nat_lt (i j : nat) :
  (i < j)%nat -> inject_Z (Z.of_nat i) < inject_Z (Z.of_nat j).
Proof.
  intros H. rewrite <- Zlt_Qlt. lia.
Qed.

Lemma physX_lt (config : PlateConfig) (i j : nat) :
  0 < spacing config -> (i < j)%nat -> physX config i < physX config j.
Proof.
  intros Hsp Hij. unfold physX.
  assert (H := Qmult_lt_compat_r _ _ (spacing config) Hsp (inject_nat_lt i j Hij)).
  lra.
Qed.

Lemma physY_lt (config : PlateConfig) (i j : nat) :
  0 < spacing config -> (i < j)%nat -> physY config i < physY config j.
Proof.
  intros Hsp Hij. unfold physY.
  assert (H := Qmult_lt_compat_r _ _ (spacing config) Hsp (inject_nat_lt i j Hij)).
  lra.
Qed.

Lemma rowDots_sorted (config : PlateConfig) (data : list byte) (ncols : Z)
    (yi : nat) :
  0 < spacing config ->
  StronglySorted row_major (rowDots config data ncols yi).
Proof.
  intros Hsp. unfold rowDots.
  apply StronglySorted_flat_map with (R := lt).
  - apply StronglySorted_seq.
  - intros xi. apply StronglySorted_dotList.
  - intros xi xj da db Hlt Hda Hdb.
    apply in_dotList, cellDot_some in Hda. destruct Hda as (sa & _ & _ & ->).
    apply in_dotList, cellDot_some in Hdb. destruct Hdb as (sb & _ & _ & ->).
    assert (H := physX_lt config xi xj Hsp Hlt).
    split; simpl; [| intros _]; lra.
Qed.

Lemma generate_sorted (config : PlateConfig) (data : list byte) :
  0 < spacing config ->
  StronglySorted row_major (generate config data).
Proof.
  intros Hsp. rewrite generate_rows.
  apply StronglySorted_flat_map with (R := lt).
  - apply StronglySorted_seq.
  - intros yi. now apply rowDots_sorted.
  - intros yi yj da db Hlt Hda Hdb.
    apply in_rowDots in Hda. destruct Hda as (xa & _ & Hda).
    apply in_rowDots in Hdb. destruct Hdb as (xb & _ & Hdb).
    apply cellDot_some in Hda. destruct Hda as (sa & _ & _ & ->).
    apply cellDot_some in Hdb. destruct Hdb as (sb & _ & _ & ->).
    assert (H := physY_lt config yi yj Hsp Hlt).
    split; simpl; [| intros Heq]; lra.
Qed.

(** C3 (row-major ordering): with a positive spacing, on a grid with at least
    one column and one row, the dots of a run are in row-major order: of two
    dots, the earlier one has the smaller or the same [y], and with the same
    [y] the smaller or the same [x].  In particular this holds of successive
    dots. *)
Theorem row_major_order (config : PlateConfig) (data : list byte) :
  0 < spacing config ->
  (0 < cols config)%Z -> (0 < rows config)%Z ->
  StronglySorted row_major (generate config data).
Proof.
  intros Hsp _ _. now apply generate_sorted.
Qed.

Lemma row_major_order_witness :
  StronglySorted row_major
    (generate (scenario_config 128 circle) (half_luminance_image 100)).
Proof.
  apply (row_major_order (scenario_config 128 circle) (half_luminance_image 100));
    reflexivity.
Defined.

(** ** Dots stay inside the margins *)

Lemma max0_pos (v : Q) : 0 < max0 v -> max0 v = v.
Proof.
  unfold max0. destruct (Qle_bool v 0); [intros H; lra | reflexivity].
Qed.

(** A column (or row) index below [Math.floor(max(0, e) / s)] leaves room
    for a whole cell inside [e]. *)
Lemma floor_div_bound (e s : Q) (i : nat) :
  0 < s ->
  (i < Z.to_nat (Qfloor (max0 e / s)))%nat ->
  (inject_Z (Z.of_nat i) + 1) * s <= e.
Proof.
  intros Hs Hi.
  assert (Hfl := Qfloor_le (max0 e / s)).
  assert (Hz : (Z.of_nat i + 1 <= Qfloor (max0 e / s))%Z) by lia.
  rewrite Zle_Qle, inject_Z_plus in Hz.
  assert (Hq : inject_Z (Z.of_nat i) + 1 <= max0 e / s).
  { change (inject_Z 1) with 1 in Hz. lra. }
  apply (Qmult_le_compat_r _ _ s) in Hq; [| lra].
  assert (Hdiv : max0 e / s * s == max0 e) by (field; lra).
  rewrite Hdiv in Hq.
  assert (Hi0 : 0 <= inject_Z (Z.of_nat i)).
  { change 0 with (inject_Z 0). rewrite <- Zle_Qle. lia. }
  assert (Hpos : 0 < (inject_Z (Z.of_nat i) + 1) * s).
  { apply Qmult_lt_0_compat; lra. }
  rewrite max0_pos in Hq by lra. exact Hq.
Qed.

Lemma inject_nat_nonneg (i : nat) : 0 <= inject_Z (Z.of_nat i).
Proof.
  change 0 with (inject_Z 0). rewrite <- Zle_Qle. lia.
Qed.

Lemma physX_inside (config : PlateConfig) (xi : nat) :
  0 < spacing config ->
  (xi < Z.to_nat (cols config))%nat ->
  margin config < physX config xi < width config - margin config.
Proof.
  intros Hsp Hxi.
  assert (Hb := floor_div_bound _ _ xi Hsp Hxi).
  assert (H0 := Qmult_le_0_compat _ _ (inject_nat_nonneg xi) (Qlt_le_weak _ _ Hsp)).
  unfold physX. qconst. split; lra.
Qed.

Lemma physY_inside (config : PlateConfig) (yi : nat) :
  0 < spacing config ->
  (yi < Z.to_nat (rows config))%nat ->
  margin config < physY config yi < height config - margin config.
Proof.
  intros Hsp Hyi.
  assert (Hb := floor_div_bound _ _ yi Hsp Hyi).
  assert (H0 := Qmult_le_0_compat _ _ (inject_nat_nonneg yi) (Qlt_le_weak _ _ Hsp)).
  unfold physY. qconst. split; lra.
Qed.

(** C9 (centers inside the effective area): with a margin of at least 0 and
    a positive spacing, the centre of every dot of a run lies strictly
    between the margins: margin < x < width - margin and
    margin < y < height - margin. *)
Theorem centers_inside_margins (config : PlateConfig) (data : list byte) :
  0 <= margin config ->
  0 < spacing config ->
  Forall (fun d =>
            (margin config < x d /\ x d < width config - margin config) /\
            (margin config < y d /\ y d < height config - margin config))
         (generate config data).
Proof.
  intros _ Hsp. apply Forall_forall. intros d Hd.
  apply in_generate in Hd. destruct Hd as (yi & xi & Hy & Hx & Hd).
  apply cellDot_some in Hd. destruct Hd as (s & _ & _ & ->). simpl.
  split; [now apply physX_inside | now apply physY_inside].
Qed.

Lemma centers_inside_margins_witness :
  Forall (fun d =>
            (margin DEFAULT_CONFIG < x d /\
             x d < width DEFAULT_CONFIG - margin DEFAULT_CONFIG) /\
            (margin DEFAULT_CONFIG < y d /\
             y d < height DEFAULT_CONFIG - margin DEFAULT_CONFIG))
         (generate DEFAULT_CONFIG (half_luminance_image 3600)).
Proof.
  apply (centers_inside_margins DEFAULT_CONFIG (half_luminance_image 3600));
    vm_compute; congruence.
Defined.

(** ** The number of dots *)

Lemma length_dotList (o : option Dot) : (List.length (dotList o) <= 1)%nat.
Proof.
  destruct o; simpl; lia.
Qed.

Lemma length_flat_map_le {A B : Type} (f : A -> list B) (k : nat) (l : list A) :
  (forall a, In a l -> (List.length (f a) <= k)%nat) ->
  (List.length (flat_map f l) <= List.length l * k)%nat.
Proof.
  induction l as [| a l IH]; intros H; simpl.
  - lia.
  - rewrite length_app.
    assert (Ha := H a (or_introl eq_refl)).
    assert (Hl := IH (fun b Hb => H b (or_intror Hb))). lia.
Qed.

Lemma length_flat_map_eq {A B : Type} (f : A -> list B) (k : nat) (l : list A) :
  (forall a, In a l -> List.length (f a) = k) ->
  List.length (flat_map f l) = (List.length l * k)%nat.
Proof.
  induction l as [| a l IH]; intros H; simpl.
  - reflexivity.
  - rewrite length_app, (H a (or_introl eq_refl)).
    rewrite (IH (fun b Hb => H b (or_intror Hb))). lia.
Qed.

Lemma length_rowDots_le (config : PlateConfig) (data : list byte) (ncols : Z)
    (yi : nat) :
  (List.length (rowDots config data ncols yi) <= Z.to_nat ncols)%nat.
Proof.
  unfold rowDots.
  assert (H := length_flat_map_le
                 (fun xi => dotList (cellDot config data ncols yi xi)) 1
                 (seq 0 (Z.to_nat ncols))
                 (fun a _ => length_dotList _)).
  rewrite length_seq in H. lia.
Qed.

Lemma length_generate_le (config : PlateConfig) (data : list byte) :
  (List.length (generate config data) <= cellCount config)%nat.
Proof.
  rewrite generate_rows. unfold cellCount.
  assert (H := length_flat_map_le (rowDots config data (cols config))
                 (Z.to_nat (cols config)) (seq 0 (Z.to_nat (rows config)))
                 (fun a _ => length_rowDots_le config data (cols config) a)).
  rewrite length_seq in H. lia.
Qed.

Lemma byteQ_range (b : byte) : 0 <= byteQ b <= 255.
Proof.
  unfold byteQ. assert (H := Byte.to_N_bounded b).
  change 0 with (inject_Z 0). change 255 with (inject_Z 255).
  rewrite <- !Zle_Qle. lia.
Qed.

Lemma channel_range (data : list byte) (idx : Z) (c : Q) :
  channel data idx = Some c -> 0 <= c <= 255.
Proof.
  unfold channel. destruct (idx <? 0)%Z; [discriminate |].
  destruct (nth_error data (Z.to_nat idx)) as [b |]; simpl; [| discriminate].
  intros [= <-]. apply byteQ_range.
Qed.

Lemma channel_in_range (data : list byte) (idx : Z) :
  (0 <= idx)%Z -> (Z.to_nat idx < List.length data)%nat ->
  exists c, channel data idx = Some c.
Proof.
  intros H0 Hlen. unfold channel.
  destruct (Z.ltb_spec idx 0); [lia |].
  destruct (nth_error data (Z.to_nat idx)) as [b |] eqn:E.
  - now exists (byteQ b).
  - apply nth_error_None in E. lia.
Qed.

(** The sample of a cell, [luminance / 255] of three bytes, is in [0,1]. *)
Lemma sample_range (data : list byte) (idx : Z) (s : Q) :
  sample data idx = Some s -> 0 <= s <= 1.
Proof.
  unfold sample.
  destruct (channel data idx) as [cr |] eqn:Er; [| discriminate].
  destruct (channel data (idx + 1)) as [cg |] eqn:Eg; [| discriminate].
  destruct (channel data (idx + 2)) as [cb |] eqn:Eb; [| discriminate].
  intros [= <-].
  apply channel_range in Er, Eg, Eb.
  unfold luminance. qconst. split; lra.
Qed.

Lemma sample_in_range (data : list byte) (idx : Z) :
  (0 <= idx)%Z -> (Z.to_nat idx + 2 < List.length data)%nat ->
  exists s, sample data idx = Some s.
Proof.
  intros H0 Hlen. unfold sample.
  destruct (channel_in_range data idx) as [cr ->]; [lia | lia |].
  destruct (channel_in_range data (idx + 1)) as [cg ->]; [lia | lia |].
  destruct (channel_in_range data (idx + 2)) as [cb ->]; [lia | lia |].
  eexists. reflexivity.
Qed.

Lemma cellIndex_in_buffer (ncols nrows : Z) (yi xi : nat) :
  (yi < Z.to_nat nrows)%nat -> (xi < Z.to_nat ncols)%nat ->
  (0 <= cellIndex ncols yi xi)%Z /\
  (Z.to_nat (cellIndex ncols yi xi) + 3
   < 4 * (Z.to_nat ncols * Z.to_nat nrows) + 1)%nat.
Proof.
  intros Hy Hx. unfold cellIndex.
  assert (Hc : (0 < ncols)%Z) by lia.
  assert (Hr : (0 < nrows)%Z) by lia.
  assert (Hcell : (Z.of_nat yi * ncols + Z.of_nat xi < ncols * nrows)%Z) by nia.
  split; [nia |].
  apply Nat2Z.inj_lt.
  rewrite Nat2Z.inj_add, Z2Nat.id by nia.
  rewrite Nat2Z.inj_add, Nat2Z.inj_mul, Nat2Z.inj_mul.
  rewrite !Z2Nat.id by lia. simpl Z.of_nat. lia.
Qed.

(** With holes of more than 0.2 mm and a buffer that holds every cell, each
    cell pushes its dot. *)
Lemma cellDot_emitted (config : PlateConfig) (data : list byte) (yi xi : nat) :
  0 <= minHoleSize config <= maxHoleSize config ->
  0.2 < minHoleSize config ->
  (4 * cellCount config <= List.length data)%nat ->
  (yi < Z.to_nat (rows config))%nat -> (xi < Z.to_nat (cols config))%nat ->
  exists d, cellDot config data (cols config) yi xi = Some d.
Proof.
  intros Hcfg Hmin Hlen Hy Hx.
  destruct (cellIndex_in_buffer (cols config) (rows config) yi xi Hy Hx)
    as [H0 Hidx].
  unfold cellCount in Hlen.
  destruct (sample_in_range data (cellIndex (cols config) yi xi)) as [s Hs];
    [exact H0 | lia |].
  unfold cellDot. rewrite Hs. cbv zeta.
  assert (Hr := mapRadius_range config s (sample_range _ _ _ Hs) Hcfg).
  assert (Hcut : above_cutoff (mapRadius config s) = true).
  { apply above_cutoff_iff. qconst. lra. }
  rewrite Hcut. eexists. reflexivity.
Qed.

Lemma length_generate_full (config : PlateConfig) (data : list byte) :
  0 <= minHoleSize config <= maxHoleSize config ->
  0.2 < minHoleSize config ->
  (4 * cellCount config <= List.length data)%nat ->
  List.length (generate config data) = cellCount config.
Proof.
  intros Hcfg Hmin Hlen. rewrite generate_rows. unfold cellCount.
  rewrite (length_flat_map_eq _ (Z.to_nat (cols config))).
  - rewrite length_seq. lia.
  - intros yi Hyi. apply in_seq in Hyi. unfold rowDots.
    rewrite (length_flat_map_eq _ 1%nat).
    + rewrite length_seq. lia.
    + intros xi Hxi. apply in_seq in Hxi.
      destruct (cellDot_emitted config data yi xi Hcfg Hmin Hlen) as [d ->];
        [lia | lia | reflexivity].
Qed.

(** The bounds of the radius mapping, on the dots of a run: the samples come
    from bytes and are in [0,1]. *)
Lemma generate_radius_bounds (config : PlateConfig) (data : list byte) :
  0 <= minHoleSize config <= maxHoleSize config ->
  Forall (fun d => minHoleSize config / 2 <= r d <= maxHoleSize config / 2)
         (generate config data).
Proof.
  intros Hcfg. apply Forall_forall. intros d Hd.
  apply in_generate in Hd. destruct Hd as (yi & xi & _ & _ & Hd).
  apply cellDot_some in Hd. destruct Hd as (s & Hs & _ & ->). simpl.
  exact (mapRadius_range config s (sample_range _ _ _ Hs) Hcfg).
Qed.

Lemma max0_nonneg (v : Q) : 0 <= max0 v.
Proof.
  unfold max0. destruct (Qle_bool v 0) eqn:E; [lra |].
  apply Qlt_le_weak, Qnot_le_lt. intros H. apply Qle_bool_iff in H. congruence.
Qed.

Lemma floor_div_nonneg (e s : Q) : 0 < s -> (0 <= Qfloor (max0 e / s))%Z.
Proof.
  intros Hs. rewrite <- (Qfloor_Z 0). apply Qfloor_resp_le.
  apply Qle_shift_div_l; [exact Hs |]. assert (H := max0_nonneg e).
  change (inject_Z 0) with 0. lra.
Qed.

Lemma cellCount_product (config : PlateConfig) :
  0 < spacing config ->
  Z.of_nat (cellCount config) = (cols config * rows config)%Z.
Proof.
  intros Hsp. unfold cellCount.
  assert (Hc : (0 <= cols config)%Z) by now apply floor_div_nonneg.
  assert (Hr : (0 <= rows config)%Z) by now apply floor_div_nonneg.
  rewrite Nat2Z.inj_mul, !Z2Nat.id by assumption. reflexivity.
Qed.

(** C10 (dot count): for a run with 0 <= minHoleSize <= maxHoleSize (and the
    positive spacing of a configuration) the Dot Set has at most cols * rows
    dots; with minHoleSize above 0.2 mm it has exactly cols * rows dots,
    [data] being the buffer [getImageData] returns for cols by rows pixels of
    four bytes. *)
Theorem dot_count (config : PlateConfig) (data : list byte) :
  0 < spacing config ->
  0 <= minHoleSize config <= maxHoleSize config ->
  (Z.of_nat (List.length (generate config data)) <= cols config * rows config)%Z
  /\ (0.2 < minHoleSize config ->
      Z.of_nat (List.length data) = (4 * (cols config * rows config))%Z ->
      Z.of_nat (List.length (generate config data))
      = (cols config * rows config)%Z).
Proof.
  intros Hsp Hcfg. rewrite <- (cellCount_product config Hsp). split.
  - apply inj_le, length_generate_le.
  - intros Hmin Hlen. f_equal.
    apply length_generate_full; [exact Hcfg | exact Hmin | lia].
Qed.

Lemma dot_count_witness :
  (Z.of_nat (List.length (generate (scenario_config 128 circle)
                                   (half_luminance_image 100)))
   <= cols (scenario_config 128 circle) * rows (scenario_config 128 circle))%Z
  /\ Z.of_nat (List.length (generate (scenario_config 128 circle)
                                     (half_luminance_image 100)))
     = (cols (scenario_config 128 circle) * rows (scenario_config 128 circle))%Z.
Proof.
  destruct (dot_count (scenario_config 128 circle) (half_luminance_image 100))
    as [Hle Heq].
  - reflexivity.
  - vm_compute. split; discriminate.
  - split; [exact Hle |]. apply Heq.
    + vm_compute. reflexivity.
    + vm_compute. reflexivity.
Defined.

(** ** The end-to-end scenario *)

Lemma Forall2_flat_map {A B C : Type} (R : B -> C -> Prop)
    (f : A -> list B) (g : A -> list C) (l : list A) :
  (forall a, In a l -> Forall2 R (f a) (g a)) ->
  Forall2 R (flat_map f l) (flat_map g l).
Proof.
  induction l as [| a l IH]; intros H; simpl.
  - constructor.
  - apply Forall2_app.
    + apply H. now left.
    + apply IH. intros b Hb. apply H. now right.
Qed.

Lemma map_singletons {A B : Type} (f : A -> B) (l : list A) :
  map f l = flat_map (fun a => [f a]) l.
Proof.
  induction l as [| a l IH]; simpl; [reflexivity | now rewrite IH].
Qed.

Lemma all_samples_spec (data : list byte) (ncols nrows : Z) (v : Q)
    (yi xi : nat) :
  all_samples data ncols nrows v = true ->
  (yi < Z.to_nat nrows)%nat -> (xi < Z.to_nat ncols)%nat ->
  exists s, sample data (cellIndex ncols yi xi) = Some s /\ s == v.
Proof.
  unfold all_samples. intros Hall Hy Hx.
  rewrite forallb_forall in Hall.
  assert (Hrow := Hall yi). rewrite in_seq in Hrow.
  specialize (Hrow ltac:(lia)). rewrite forallb_forall in Hrow.
  assert (Hcell := Hrow xi). rewrite in_seq in Hcell.
  specialize (Hcell ltac:(lia)).
  destruct (sample data (cellIndex ncols yi xi)) as [s |]; [| discriminate].
  exists s. split; [reflexivity | now apply Qeq_bool_iff].
Qed.

Lemma scenario_cell (t : Q) (sh : Shape) (data : list byte) (yi xi : nat) (s : Q) :
  sample data (cellIndex 10 yi xi) = Some s -> s == 0.5 ->
  exists d,
    cellDot (scenario_config t sh) data 10 yi xi = Some d /\
    Dot_eq d {| x := 5 + 10 * inject_Z (Z.of_nat xi);
                y := 5 + 10 * inject_Z (Z.of_nat yi);
                r := 1.75 |}.
Proof.
  intros Hs Hv. unfold cellDot. rewrite Hs. cbv zeta.
  assert (Hr : mapRadius (scenario_config t sh) s == 1.75).
  { rewrite mapRadius_unfold. simpl. qconst. lra. }
  assert (Hcut : above_cutoff (mapRadius (scenario_config t sh) s) = true).
  { apply above_cutoff_iff. lra. }
  rewrite Hcut. eexists. split; [reflexivity |].
  unfold Dot_eq, physX, physY. simpl. qconst. repeat split; lra.
Qed.

(** C4 (end-to-end scenario): for the configuration width 100, height 100,
    spacing 10, margin 0, minHoleSize 1, maxHoleSize 6, not inverted, and a
    buffer whose cells all have the luminance sample 0.5, the run has exactly
    100 dots, each of radius 1.75, centred at (5,5), (15,5), ..., (95,95) in
    this order. *)
Theorem scenario_mid_gray (t : Q) (sh : Shape) (data : list byte) :
  all_samples data (cols (scenario_config t sh)) (rows (scenario_config t sh))
              0.5 = true ->
  List.length (generate (scenario_config t sh) data) = 100%nat
  /\ Forall2 Dot_eq (generate (scenario_config t sh) data) scenario_dots.
Proof.
  intros Hall.
  assert (Hdots : Forall2 Dot_eq (generate (scenario_config t sh) data)
                                 scenario_dots).
  { rewrite generate_rows.
    change (cols (scenario_config t sh)) with 10%Z in *.
    change (rows (scenario_config t sh)) with 10%Z in *.
    unfold scenario_dots. apply Forall2_flat_map.
    intros yi Hyi. apply in_seq in Hyi. unfold rowDots.
    rewrite map_singletons.
    apply Forall2_flat_map.
    intros xi Hxi. apply in_seq in Hxi.
    destruct (all_samples_spec data 10 10 0.5 yi xi Hall) as (s & Hs & Hv);
      [simpl; lia | simpl; lia |].
    destruct (scenario_cell t sh data yi xi s Hs Hv) as (d & -> & Hd).
    simpl. constructor; [exact Hd | constructor]. }
  split; [| exact Hdots].
  apply Forall2_length in Hdots. rewrite Hdots. reflexivity.
Qed.

Lemma scenario_mid_gray_witness :
  List.length (generate (scenario_config 128 circle) (half_luminance_image 100))
  = 100%nat
  /\ Forall2 Dot_eq
       (generate (scenario_config 128 circle) (half_luminance_image 100))
       scenario_dots.
Proof.
  apply (scenario_mid_gray 128 circle (half_luminance_image 100)).
  vm_compute. reflexivity.
Defined.

(** ** The chunked loop and its cancellation *)

Section ChunkFacts.

Variable getImageData : string -> Z -> Z -> list byte.

Local Abbreviation runAt := (run_at getImageData).

Lemma rowStep_run_at (id : nat) (config : PlateConfig) (imageSrc : string)
    (yi : nat) :
  rowStep (runAt id config imageSrc yi) = runAt id config imageSrc (S yi).
Proof.
  unfold rowStep, run_at. simpl. f_equal.
  replace (S yi) with (yi + 1)%nat by lia.
  rewrite processRows_split. reflexivity.
Qed.

(** A chunk of budget [budget] entered before row [yi] leaves through the
    clock test before row [yi + budget], or ends the loop if there is no such
    row. *)
Lemma whileRows_run_at (id : nat) (config : PlateConfig) (imageSrc : string)
    (budget : nat) :
  forall yi, (yi <= Z.to_nat (rows config))%nat ->
  whileRows budget (runAt id config imageSrc yi)
  = if (yi + budget <? Z.to_nat (rows config))%nat
    then (runAt id config imageSrc (yi + budget), false)
    else (runAt id config imageSrc (Z.to_nat (rows config)), true).
Proof.
  induction budget as [| budget IH]; intros yi Hyi; simpl whileRows.
  - change (run_rows (runAt id config imageSrc yi)) with (rows config).
    change (run_y (runAt id config imageSrc yi)) with yi.
    rewrite Nat.add_0_r.
    destruct (Z.ltb_spec (Z.of_nat yi) (rows config));
      destruct (Nat.ltb_spec yi (Z.to_nat (rows config))); try lia.
    + reflexivity.
    + replace yi with (Z.to_nat (rows config)) by lia. reflexivity.
  - change (run_rows (runAt id config imageSrc yi)) with (rows config).
    change (run_y (runAt id config imageSrc yi)) with yi.
    destruct (Z.ltb_spec (Z.of_nat yi) (rows config)).
    + rewrite rowStep_run_at, IH by lia.
      replace (S yi + budget)%nat with (yi + S budget)%nat by lia.
      reflexivity.
    + destruct (Nat.ltb_spec (yi + S budget) (Z.to_nat (rows config)));
        try lia.
      replace yi with (Z.to_nat (rows config)) by lia. reflexivity.
Qed.

(** The token test at the head of [processChunk]: a superseded run returns
    at once, with no effect. *)
Lemma processChunk_stale (budget : nat) (run : Run) (app : App) :
  processIdRef app <> currentProcessId run ->
  processChunk budget run app = app.
Proof.
  intros Hne. unfold processChunk.
  destruct (Nat.eqb_spec (processIdRef app) (currentProcessId run));
    [contradiction | reflexivity].
Qed.

(** A chunk of the current run: it yields with its progress and a new
    callback, or publishes the dots of all the rows. *)
Lemma processChunk_current (budget : nat) (config : PlateConfig)
    (imageSrc : string) (yi : nat) (app : App) :
  (yi <= Z.to_nat (rows config))%nat ->
  processChunk budget (runAt (processIdRef app) config imageSrc yi) app
  = if (yi + budget <? Z.to_nat (rows config))%nat
    then {| processIdRef := processIdRef app;
            dots := dots app;
            processing := processing app;
            progress := progressAt (yi + budget) (rows config);
            img_src := img_src app;
            img_complete := img_complete app;
            img_onload := img_onload app;
            animationFrames :=
              animationFrames app
              ++ [runAt (processIdRef app) config imageSrc (yi + budget)] |}
    else {| processIdRef := processIdRef app;
            dots := generate config
                      (getImageData imageSrc (cols config) (rows config));
            processing := false;
            progress := 100%Z;
            img_src := img_src app;
            img_complete := img_complete app;
            img_onload := img_onload app;
            animationFrames := animationFrames app |}.
Proof.
  intros Hyi. unfold processChunk.
  change (currentProcessId (runAt (processIdRef app) config imageSrc yi))
    with (processIdRef app).
  rewrite Nat.eqb_refl. simpl negb. cbv iota.
  rewrite whileRows_run_at by exact Hyi.
  destruct (yi + budget <? Z.to_nat (rows config))%nat; reflexivity.
Qed.

Lemma whileRows_id (budget : nat) :
  forall run, currentProcessId (fst (whileRows budget run)) = currentProcessId run.
Proof.
  induction budget as [| budget IH]; intros run; simpl;
    destruct (Z.of_nat (run_y run) <? run_rows run)%Z; try reflexivity.
  now rewrite IH.
Qed.

Lemma processChunk_bounded (budget : nat) (run : Run) (app : App) :
  tokens_bounded app -> tokens_bounded (processChunk budget run app).
Proof.
  intros Hb. unfold processChunk.
  destruct (Nat.eqb_spec (processIdRef app) (currentProcessId run)) as [Hid |];
    simpl; [| exact Hb].
  assert (Hrun := whileRows_id budget run).
  destruct (whileRows budget run) as [run' [|]]; simpl in Hrun.
  - exact Hb.
  - unfold tokens_bounded in *. simpl. apply Forall_app. split; [exact Hb |].
    constructor; [lia | constructor].
Qed.

End ChunkFacts.

Section EngineFacts.

Variable getContext : option (string -> Z -> Z -> list byte).

Local Abbreviation publishedSet := (published getContext).
Local Abbreviation currentRun := (current_run getContext).
Local Abbreviation stepOn := (step getContext).
Local Abbreviation runEvents := (run_events getContext).

Lemma published_context (getImageData : string -> Z -> Z -> list byte)
    (config : PlateConfig) (imageSrc : string) :
  getContext = Some getImageData ->
  publishedSet config imageSrc
  = if degenerate config then Some []
    else if IndexSizeError (cols config) (rows config) then None
    else Some (generate config
                 (getImageData imageSrc (cols config) (rows config))).
Proof.
  unfold published. now intros ->.
Qed.

Lemma published_no_context (config : PlateConfig) (imageSrc : string) :
  getContext = None -> publishedSet config imageSrc = None.
Proof.
  unfold published. now intros ->.
Qed.

(** *** No token of the future *)

Lemma onload_bounded (id : nat) (config : PlateConfig) (budget : nat)
    (app : App) :
  tokens_bounded app -> tokens_bounded (onload getContext id config budget app).
Proof.
  intros Hb. unfold onload.
  destruct (negb (processIdRef app =? id)%nat); [exact Hb |].
  destruct getContext as [getImageData |]; [| exact Hb].
  destruct (degenerate config); [exact Hb |]. cbv zeta.
  destruct (IndexSizeError (cols config) (rows config)); [exact Hb |].
  now apply processChunk_bounded.
Qed.

Lemma step_bounded (app : App) (e : event) :
  tokens_bounded app -> tokens_bounded (stepOn app e).
Proof.
  intros Hb. destruct e as [config imageSrc budget | budget | budget]; simpl.
  - unfold processImage.
    destruct (String.eqb imageSrc EmptyString); [exact Hb |].
    match goal with
    | |- tokens_bounded (if _ then onload _ _ _ _ ?a else ?a) =>
        assert (Ha : tokens_bounded a)
    end.
    { unfold tokens_bounded in *. simpl.
      eapply Forall_impl; [| exact Hb]. simpl. intros run Hrun. lia. }
    match goal with
    | |- tokens_bounded (if ?c then _ else _) => destruct c
    end; [now apply onload_bounded | exact Ha].
  - destruct (img_complete app); [exact Hb |].
    destruct (img_onload app) as [[id config] |];
      [apply onload_bounded |]; exact Hb.
  - destruct (animationFrames app) as [| run rest] eqn:E; [exact Hb |].
    apply processChunk_bounded. unfold tokens_bounded in *. simpl.
    rewrite E in Hb. now inversion Hb.
Qed.

Lemma run_events_bounded (tr : list event) :
  forall app, tokens_bounded app -> tokens_bounded (runEvents app tr).
Proof.
  induction tr as [| e tr IH]; intros app Hb; simpl.
  - exact Hb.
  - apply IH. now apply step_bounded.
Qed.

Lemma initial_bounded : tokens_bounded initial.
Proof.
  constructor.
Qed.

(** *** The current run *)

(** The [onload] handler of the current run, called on a loaded image:
    the run ends at once or yields before some row. *)
Lemma onload_current (id : nat) (old : list Dot) (config : PlateConfig)
    (imageSrc : string) (budget : nat) (app : App) :
  view app = (id, old, true, 0%Z) ->
  img_src app = imageSrc ->
  img_complete app = true ->
  Forall (stale id) (animationFrames app) ->
  exists ph,
    ph <> Waiting /\
    currentRun id old config imageSrc ph
               (onload getContext id config budget app) /\
    (List.length (animationFrames (onload getContext id config budget app))
     <= S (List.length (animationFrames app)))%nat.
Proof.
  destruct app as [pid ds pr pg isrc icomp ionl frames].
  unfold view. simpl. intros [= -> -> -> ->] -> -> Hstale.
  unfold onload. simpl processIdRef. rewrite Nat.eqb_refl. simpl negb. cbv iota.
  destruct getContext as [getImageData |] eqn:Hctx.
  - destruct (degenerate config) eqn:Hdeg.
    + exists Done. split; [discriminate |]. split; [| simpl; lia].
      unfold current_run, view, view_of, published. rewrite Hdeg. simpl.
      repeat split. exact Hstale.
    + cbv zeta. simpl img_src.
      destruct (IndexSizeError (cols config) (rows config)) eqn:Hthrow.
      { exists Done. split; [discriminate |]. split; [| simpl; lia].
        unfold current_run, view, view_of, published.
        rewrite Hdeg, Hthrow. simpl.
        repeat split. exact Hstale. }
      match goal with
      | |- context [processChunk budget _ ?a] =>
          assert (Hchunk := processChunk_current getImageData budget config
                              imageSrc 0 a ltac:(lia))
      end.
      change (run_at getImageData _ config imageSrc 0)
        with {| currentProcessId := id; run_config := config;
                run_data := getImageData imageSrc (cols config) (rows config);
                run_cols := cols config; run_rows := rows config;
                run_y := 0; newDots := [] |} in Hchunk.
      rewrite Hchunk. clear Hchunk. simpl Nat.add.
      destruct (Nat.ltb_spec budget (Z.to_nat (rows config))) as [Hlt | Hge].
      * exists (Yielded budget). split; [discriminate |].
        split; [| simpl; rewrite length_app; simpl; lia].
        unfold current_run, view, view_of. simpl.
        repeat split; [exact Hdeg | exact Hthrow | lia |].
        exists getImageData, frames, [].
        repeat split; [exact Hstale | constructor].
      * exists Done. split; [discriminate |]. split; [| simpl; lia].
        unfold current_run, view, view_of, published.
        rewrite Hdeg, Hthrow. simpl.
        repeat split. exact Hstale.
  - exists Done. split; [discriminate |]. split; [| simpl; lia].
    unfold current_run, view, view_of, published. simpl.
    repeat split. exact Hstale.
Qed.

(** [processImage] makes its run the current one, every pending callback
    being from then on a superseded one. *)
Lemma processImage_current (config : PlateConfig) (imageSrc : string)
    (budget : nat) (app : App) :
  imageSrc <> EmptyString ->
  tokens_bounded app ->
  exists ph,
    currentRun (S (processIdRef app)) (dots app) config imageSrc ph
               (processImage getContext config imageSrc budget app).
Proof.
  intros Hsrc Hb. unfold processImage.
  destruct (String.eqb_spec imageSrc EmptyString) as [| _]; [contradiction |].
  cbv zeta.
  assert (Hstale : Forall (stale (S (processIdRef app))) (animationFrames app)).
  { eapply Forall_impl; [| exact Hb]. unfold stale. simpl. intros run Hrun. lia. }
  simpl img_complete.
  destruct (negb (img_src app =? imageSrc)%string) eqn:Hchanged; simpl.
  - exists Waiting. unfold current_run, view, view_of. simpl. repeat split.
    exact Hstale.
  - destruct (img_complete app) eqn:Hcomplete.
    + match goal with
      | |- exists ph, currentRun _ _ _ _ ph (onload _ ?i ?c ?b ?a) =>
          destruct (onload_current i (dots app) c imageSrc b a)
            as (ph & _ & Hph & _)
      end; try reflexivity; try exact Hstale.
      exists ph. exact Hph.
    + exists Waiting. unfold current_run, view, view_of. simpl. repeat split.
      exact Hstale.
Qed.

(** What [published] stands for: from the initial state, a run that nothing
    interrupts, with a first chunk whose clock lets every row through, ends
    with the view of a run that has ended over the empty Dot Set. *)
Lemma uninterrupted_run (config : PlateConfig) (imageSrc : string)
    (budget budget' : nat) :
  imageSrc <> EmptyString ->
  (Z.to_nat (rows config) <= budget')%nat ->
  view (runEvents initial [ProcessImage config imageSrc budget; Load budget'])
  = view_of getContext 1 [] config imageSrc Done.
Proof.
  intros Hsrc Hbudget.
  destruct imageSrc as [| c rest] eqn:Esrc; [contradiction |].
  rewrite <- Esrc in *.
  assert (Hne1 : String.eqb imageSrc EmptyString = false)
    by (rewrite Esrc; reflexivity).
  assert (Hne2 : String.eqb EmptyString imageSrc = false)
    by (rewrite Esrc; reflexivity).
  clear Esrc. unfold run_events. cbn [fold_left step].
  unfold processImage. rewrite Hne1. cbn [initial img_src img_complete
    processIdRef dots animationFrames negb]. rewrite Hne2.
  cbn [negb img_complete img_onload processIdRef dots processing progress
       img_src animationFrames].
  unfold onload. cbn [processIdRef Nat.eqb negb img_src].
  unfold view_of, published.
  destruct getContext as [getImageData |]; [| reflexivity].
  destruct (degenerate config) eqn:Hdeg; [reflexivity |]. cbv zeta.
  destruct (IndexSizeError (cols config) (rows config)); [reflexivity |].
  match goal with
  | |- context [processChunk budget' _ ?a] =>
      assert (Hchunk := processChunk_current getImageData budget' config
                          imageSrc 0 a ltac:(lia))
  end.
  change (run_at getImageData _ config imageSrc 0)
    with {| currentProcessId := 1; run_config := config;
            run_data := getImageData imageSrc (cols config) (rows config);
            run_cols := cols config; run_rows := rows config;
            run_y := 0; newDots := [] |} in Hchunk.
  rewrite Hchunk. clear Hchunk. simpl Nat.add.
  destruct (Nat.ltb_spec budget' (Z.to_nat (rows config))); [lia |].
  reflexivity.
Qed.

Local Arguments run_at : simpl never.
Local Arguments processChunk : simpl never.
Local Arguments onload : simpl never.
Local Arguments progressAt : simpl never.
Local Arguments published : simpl never.

(** The load event: the handler of a waiting run is called; a run past its
    handler does not see the event. *)
Lemma load_current (id : nat) (old : list Dot) (config : PlateConfig)
    (imageSrc : string) (ph : phase) (budget : nat) (app : App) :
  currentRun id old config imageSrc ph app ->
  exists ph',
    ph' <> Waiting /\
    currentRun id old config imageSrc ph' (stepOn app (Load budget)) /\
    (List.length (animationFrames (stepOn app (Load budget)))
     <= S (List.length (animationFrames app)))%nat.
Proof.
  intros (Hview & Hsrc & Hph). destruct ph as [| yi |].
  - destruct Hph as (Hcomplete & Honload & Hstale).
    destruct app as [pid ds pr pg isrc icomp ionl frames].
    simpl in Hsrc, Hcomplete, Honload, Hstale. subst isrc icomp ionl.
    simpl stepOn. cbv iota.
    match goal with
    | |- context [onload _ _ _ _ ?a] =>
        exact (onload_current id old config imageSrc budget a Hview eq_refl
                              eq_refl Hstale)
    end.
  - exists (Yielded yi). destruct Hph as (Hcomplete & Hrest).
    simpl. rewrite Hcomplete. split; [discriminate |]. split; [| lia].
    split; [exact Hview |]. split; [exact Hsrc |]. now split.
  - exists Done. destruct Hph as (Hcomplete & Hrest).
    simpl. rewrite Hcomplete. split; [discriminate |]. split; [| lia].
    split; [exact Hview |]. split; [exact Hsrc |]. now split.
Qed.

(** A frame while every pending callback is a superseded one: the callback
    returns at its token test. *)
Lemma frame_all_stale (id : nat) (budget : nat) (app : App) :
  processIdRef app = id ->
  Forall (stale id) (animationFrames app) ->
  view (stepOn app (Frame budget)) = view app /\
  img_src (stepOn app (Frame budget)) = img_src app /\
  img_complete (stepOn app (Frame budget)) = img_complete app /\
  img_onload (stepOn app (Frame budget)) = img_onload app /\
  Forall (stale id) (animationFrames (stepOn app (Frame budget))).
Proof.
  intros Hid Hstale. simpl.
  destruct (animationFrames app) as [| run rest] eqn:E.
  - rewrite E. repeat split. constructor.
  - inversion Hstale as [| ? ? Hrun Hrest]; subst.
    rewrite processChunk_stale by (simpl; intros Heq; apply Hrun; now rewrite Heq).
    repeat split. exact Hrest.
Qed.

Lemma current_run_token (id : nat) (old : list Dot) (config : PlateConfig)
    (imageSrc : string) (ph : phase) (app : App) :
  currentRun id old config imageSrc ph app -> processIdRef app = id.
Proof.
  intros (Hview & _). unfold view, view_of in Hview.
  destruct ph; [| | destruct (publishedSet config imageSrc)];
    now inversion Hview.
Qed.

(** A frame while the current run has yielded before row [yi]: a superseded
    callback leaves the queue, or the current run goes on from row [yi]. *)
Lemma frame_yielded (id : nat) (old : list Dot) (config : PlateConfig)
    (imageSrc : string) (yi budget : nat) (app : App) :
  currentRun id old config imageSrc (Yielded yi) app ->
  currentRun id old config imageSrc Done (stepOn app (Frame budget))
  \/ exists yj,
       currentRun id old config imageSrc (Yielded yj) (stepOn app (Frame budget))
       /\ ((1 <= budget)%nat ->
           (List.length (animationFrames (stepOn app (Frame budget)))
            + (Z.to_nat (rows config) - yj)
            < List.length (animationFrames app)
              + (Z.to_nat (rows config) - yi))%nat).
Proof.
  destruct app as [pid ds pr pg isrc icomp ionl frames].
  unfold current_run at 1, view, view_of. simpl.
  intros ([= -> -> -> ->] & -> & -> & Hdeg & Hthrow & Hyi & getImageData
          & before & after & Hctx & -> & Hb & Ha).
  destruct before as [| run before]; simpl.
  - match goal with
    | |- context [processChunk budget _ ?a] =>
        assert (Hchunk := processChunk_current getImageData budget config
                            imageSrc yi a ltac:(lia))
    end.
    simpl in Hchunk. rewrite Hchunk. clear Hchunk.
    destruct (Nat.ltb_spec (yi + budget) (Z.to_nat (rows config))) as [Hlt | Hge].
    + right. exists (yi + budget)%nat. split.
      * unfold current_run, view, view_of. simpl.
        repeat split; [exact Hdeg | exact Hthrow | lia |].
        exists getImageData, after, [].
        repeat split; [exact Hctx | exact Ha | constructor].
      * intros Hbudget. simpl. rewrite length_app. simpl. lia.
    + left. unfold current_run, view, view_of.
      rewrite (published_context getImageData _ _ Hctx), Hdeg, Hthrow. simpl.
      repeat split. exact Ha.
  - inversion Hb as [| ? ? Hrun Hbefore]; subst.
    rewrite processChunk_stale by (simpl; intros Heq; apply Hrun; now rewrite Heq).
    right. exists yi. split.
    + unfold current_run, view, view_of. simpl.
      repeat split; [exact Hdeg | exact Hthrow | exact Hyi |].
      exists getImageData, before, after. repeat split; assumption.
    + intros _. simpl. rewrite !length_app. simpl. lia.
Qed.

(** Between the start of a run and the start of the next one, every event
    keeps the run the current one. *)
Lemma step_current (id : nat) (old : list Dot) (config : PlateConfig)
    (imageSrc : string) (ph : phase) (app : App) (e : event) :
  is_start e = false ->
  currentRun id old config imageSrc ph app ->
  exists ph', currentRun id old config imageSrc ph' (stepOn app e).
Proof.
  intros He Hcur. destruct e as [? ? ? | budget | budget]; [discriminate | |].
  - destruct (load_current id old config imageSrc ph budget app Hcur)
      as (ph' & _ & Hph' & _).
    now exists ph'.
  - assert (Hid := current_run_token _ _ _ _ _ _ Hcur).
    destruct ph as [| yi |].
    + exists Waiting. destruct Hcur as (Hview & Hsrc & Hcomplete & Honload & Hstale).
      destruct (frame_all_stale id budget app Hid Hstale)
        as (Hv & Hs & Hc & Ho & Hf).
      unfold current_run. rewrite Hv, Hs, Hc, Ho. repeat split; assumption.
    + destruct (frame_yielded id old config imageSrc yi budget app Hcur)
        as [Hdone | (yj & Hyj & _)]; [now exists Done | now exists (Yielded yj)].
    + exists Done. destruct Hcur as (Hview & Hsrc & Hcomplete & Hstale).
      destruct (frame_all_stale id budget app Hid Hstale)
        as (Hv & Hs & Hc & Ho & Hf).
      unfold current_run. rewrite Hv, Hs, Hc. repeat split; assumption.
Qed.

Lemma events_current (id : nat) (old : list Dot) (config : PlateConfig)
    (imageSrc : string) (tr : list event) :
  forallb (fun e => negb (is_start e)) tr = true ->
  forall ph app,
    currentRun id old config imageSrc ph app ->
    exists ph', currentRun id old config imageSrc ph' (runEvents app tr).
Proof.
  induction tr as [| e tr IH]; intros Htr ph app Hcur; simpl in *.
  - now exists ph.
  - apply andb_true_iff in Htr. destruct Htr as [He Htr].
    apply negb_true_iff in He.
    destruct (step_current id old config imageSrc ph app e He Hcur)
      as (ph1 & Hph1).
    exact (IH Htr ph1 _ Hph1).
Qed.

Lemma run_events_cons (app : App) (e : event) (tr : list event) :
  runEvents app (e :: tr) = runEvents (stepOn app e) tr.
Proof.
  reflexivity.
Qed.

(** A run that has ended stays so under frames. *)
Lemma frames_done (id : nat) (old : list Dot) (config : PlateConfig)
    (imageSrc : string) (budgets : list nat) :
  forall app,
    currentRun id old config imageSrc Done app ->
    currentRun id old config imageSrc Done (runEvents app (map Frame budgets)).
Proof.
  induction budgets as [| budget budgets IH]; intros app Hcur.
  - exact Hcur.
  - simpl map. rewrite run_events_cons.
    apply IH. assert (Hid := current_run_token _ _ _ _ _ _ Hcur).
    destruct Hcur as (Hview & Hsrc & Hcomplete & Hstale).
    destruct (frame_all_stale id budget app Hid Hstale)
      as (Hv & Hs & Hc & Ho & Hf).
    unfold current_run. rewrite Hv, Hs, Hc. repeat split; assumption.
Qed.

(** Frames whose clock lets at least one row through bring a yielded run to
    its end: each frame removes a superseded callback or advances the run. *)
Lemma frames_finish (id : nat) (old : list Dot) (config : PlateConfig)
    (imageSrc : string) (budgets : list nat) :
  Forall (fun budget => (1 <= budget)%nat) budgets ->
  forall yi app,
    currentRun id old config imageSrc (Yielded yi) app ->
    (List.length (animationFrames app) + (Z.to_nat (rows config) - yi)
     <= S (List.length budgets))%nat ->
    currentRun id old config imageSrc Done (runEvents app (map Frame budgets)).
Proof.
  induction 1 as [| budget budgets Hbudget Hbudgets IH];
    intros yi app Hcur Hlen.
  - exfalso.
    destruct Hcur
      as (_ & _ & _ & _ & _ & Hyi & g & before & after & _ & Hfr & _).
    rewrite Hfr, length_app in Hlen. simpl in Hlen. lia.
  - simpl map. rewrite run_events_cons.
    destruct (frame_yielded id old config imageSrc yi budget app Hcur)
      as [Hdone | (yj & Hyj & Hless)].
    + now apply frames_done.
    + apply (IH yj); [exact Hyj |]. specialize (Hless Hbudget).
      cbn [List.length] in Hlen. lia.
Qed.

(** After its load event the current run is past its handler; a few frames
    later it has ended. *)
Lemma load_frames_done (id : nat) (old : list Dot) (config : PlateConfig)
    (imageSrc : string) (ph : phase) (app : App) (budget0 : nat)
    (budgets : list nat) :
  currentRun id old config imageSrc ph app ->
  Forall (fun budget => (1 <= budget)%nat) budgets ->
  (List.length (animationFrames app) + Z.to_nat (rows config)
   <= List.length budgets)%nat ->
  currentRun id old config imageSrc Done
             (runEvents app (Load budget0 :: map Frame budgets)).
Proof.
  intros Hcur Hbudgets Hlen. rewrite run_events_cons.
  destruct (load_current id old config imageSrc ph budget0 app Hcur)
    as (ph' & Hph' & Hcur' & Hframes).
  destruct ph' as [| yj |]; [contradiction | |].
  - apply (frames_finish id old config imageSrc budgets Hbudgets yj);
      [exact Hcur' | lia].
  - now apply frames_done.
Qed.

Lemma degenerate_iff (config : PlateConfig) :
  degenerate config = true <-> effW config <= 0 \/ effH config <= 0.
Proof.
  unfold degenerate. rewrite orb_true_iff, !Qle_bool_iff. reflexivity.
Qed.

(** C2 (cancellation safety): let a run B be started on [config] and
    [imageSrc] after any history, in particular while the loop of a run A has
    callbacks pending, and let no later run be started.  Then whatever the
    application shows (token, Dot Set, processing flag, progress) is that of
    an uninterrupted B in one of its phases: the Dot Set from before B with
    the progress of B, or what an uninterrupted computation of B's inputs
    publishes; nothing of A.  And B does end: once the image is loaded, as
    many frames as there are callbacks pending and rows, each with a clock
    that lets a row through, bring the application to the end of an
    uninterrupted B.  That end is the publication of B's Dot Set, or, where
    the handler of B ends without one (no 2d context, or a grid without a
    column or a row, on which [getImageData] throws), the state B started
    from, still processing. *)
Theorem cancellation_safety (trA : list event) (config : PlateConfig)
    (imageSrc : string) (budget : nat) (trB : list event) :
  imageSrc <> EmptyString ->
  forallb (fun e => negb (is_start e)) trB = true ->
  let before := runEvents initial trA in
  let after := runEvents before (ProcessImage config imageSrc budget :: trB) in
  (exists ph,
     view after
     = view_of getContext (S (processIdRef before)) (dots before)
               config imageSrc ph)
  /\ (forall budget0 budgets,
        Forall (fun b => (1 <= b)%nat) budgets ->
        (List.length (animationFrames after) + Z.to_nat (rows config)
         <= List.length budgets)%nat ->
        view (runEvents after (Load budget0 :: map Frame budgets))
        = view_of getContext (S (processIdRef before)) (dots before)
                  config imageSrc Done).
Proof.
  intros Hsrc HtrB before after.
  assert (Hbounded : tokens_bounded before)
    by (apply run_events_bounded, initial_bounded).
  destruct (processImage_current config imageSrc budget before Hsrc Hbounded)
    as (ph0 & Hph0).
  destruct (events_current _ _ config imageSrc trB HtrB ph0 _ Hph0)
    as (ph & Hph).
  change (runEvents (processImage getContext config imageSrc budget before) trB)
    with after in Hph.
  split.
  - exists ph. apply Hph.
  - intros budget0 budgets Hbudgets Hlen.
    apply (load_frames_done _ _ _ _ ph after budget0 budgets Hph Hbudgets Hlen).
Qed.

(** C6 (degenerate geometry): when the effective width or the effective
    height is at most 0, the run, whatever the image and whatever came
    before, publishes the empty Dot Set as soon as its image is loaded, and
    ends as a completed run does: not processing, no callback of its own
    pending.  The canvas is taken to have its 2d context. *)
Theorem degenerate_geometry (getImageData : string -> Z -> Z -> list byte)
    (trA : list event) (config : PlateConfig) (imageSrc : string)
    (budget budget' : nat) :
  getContext = Some getImageData ->
  imageSrc <> EmptyString ->
  effW config <= 0 \/ effH config <= 0 ->
  let before := runEvents initial trA in
  let after :=
    runEvents before [ProcessImage config imageSrc budget; Load budget'] in
  dots after = [] /\ processing after = false
  /\ Forall (stale (processIdRef after)) (animationFrames after).
Proof.
  intros Hctx Hsrc Hdeg before after. apply degenerate_iff in Hdeg.
  assert (Hbounded : tokens_bounded before)
    by (apply run_events_bounded, initial_bounded).
  destruct (processImage_current config imageSrc budget before Hsrc Hbounded)
    as (ph0 & Hph0).
  destruct (load_current _ _ config imageSrc ph0 budget' _ Hph0)
    as (ph & Hph & Hcur & _).
  change (stepOn (processImage getContext config imageSrc budget before)
                 (Load budget')) with after in Hcur.
  destruct ph as [| yi |]; [contradiction | |].
  - destruct Hcur as (_ & _ & _ & Hnot & _). congruence.
  - destruct Hcur as (Hview & _ & _ & Hstale).
    unfold view, view_of in Hview.
    rewrite (published_context getImageData config imageSrc Hctx), Hdeg in Hview.
    injection Hview as Hid Hdots Hproc _.
    rewrite Hid. repeat split; assumption.
Qed.

End EngineFacts.

(** A run on the 10 by 10 plate yields before row 5; a second run on the same
    image supersedes it and yields before row 4; the callback of the first
    run is then called, and the second run goes on. *)
Lemma cancellation_safety_witness :
  let trA := [ProcessImage (scenario_config 128 circle) "a"%string 3;
              Load 3; Frame 2] in
  let trB := [Frame 5; Load 0; Frame 1] in
  let before := run_events (Some uniform_canvas) initial trA in
  let after :=
    run_events (Some uniform_canvas) before
      (ProcessImage (scenario_config 128 circle) "a"%string 4 :: trB) in
  (exists ph,
     view after
     = view_of (Some uniform_canvas) (S (processIdRef before)) (dots before)
               (scenario_config 128 circle) "a"%string ph)
  /\ view (run_events (Some uniform_canvas) after
            (Load 0 :: map Frame [1; 1; 1; 1; 1; 1; 1; 1; 1; 1; 1]%nat))
     = view_of (Some uniform_canvas) (S (processIdRef before)) (dots before)
               (scenario_config 128 circle) "a"%string Done.
Proof.
  intros trA trB before after.
  destruct (cancellation_safety (Some uniform_canvas) trA
              (scenario_config 128 circle) "a"%string 4 trB)
    as [Hview Hdone].
  - discriminate.
  - reflexivity.
  - split; [exact Hview |]. apply Hdone.
    + repeat constructor.
    + vm_compute. lia.
Defined.

(** The default plate with a margin of 249 has an effective width of 2 mm
    and no column at a spacing of 8: its geometry is not degenerate,
    [getImageData] throws, and the run stays in processing over the Dot Set
    of the run before, whatever frames follow. *)
Lemma run_without_column :
  let config :=
    {| width := 500; height := 500; spacing := 8;
       minHoleSize := 1; maxHoleSize := 6; margin := 249;
       inverted := false; threshold := 128; shape := circle |} in
  let before :=
    run_events (Some uniform_canvas) initial
      [ProcessImage (scenario_config 128 circle) "a"%string 20; Load 20] in
  let after :=
    run_events (Some uniform_canvas) before
      [ProcessImage config "a"%string 3; Load 3; Frame 1; Frame 1] in
  degenerate config = false
  /\ published (Some uniform_canvas) config "a"%string = None
  /\ List.length (dots before) = 100%nat
  /\ view after = (2%nat, dots before, true, 0%Z).
Proof.
  vm_compute. repeat split.
Qed.

(** The plate of 500 by 500 with a margin of 300. *)
Lemma degenerate_geometry_witness :
  let config :=
    {| width := 500; height := 500; spacing := 8;
       minHoleSize := 1; maxHoleSize := 6; margin := 300;
       inverted := false; threshold := 128; shape := circle |} in
  let after :=
    run_events (Some uniform_canvas)
      (run_events (Some uniform_canvas) initial
         [ProcessImage DEFAULT_CONFIG "a"%string 3; Load 3])
      [ProcessImage config "a"%string 1; Load 1] in
  dots after = [] /\ processing after = false
  /\ Forall (stale (processIdRef after)) (animationFrames after).
Proof.
  intros config after.
  apply (degenerate_geometry (Some uniform_canvas) uniform_canvas
           [ProcessImage DEFAULT_CONFIG "a"%string 3; Load 3] config
           "a"%string 1 1).
  - reflexivity.
  - discriminate.
  - left. vm_compute. discriminate.
Defined.

(** ** The SVG export *)

Lemma is_digit_digit (n : N) : is_digit (digit n) = true.
Proof.
  unfold is_digit, digit.
  assert (H : (n mod 10 < 10)%N) by (apply N.mod_lt; discriminate).
  set (m := (n mod 10)%N) in *. clearbody m.
  rewrite N_ascii_embedding by lia.
  apply andb_true_iff. split; apply N.leb_le; lia.
Qed.

Lemma all_digits_uint (u : Decimal.uint) :
  all_digits (NilEmpty.string_of_uint u) = true.
Proof.
  induction u; simpl; try reflexivity; exact IHu.
Qed.

Lemma digits_all_digits (n : N) : all_digits (digits n) = true.
Proof.
  apply all_digits_uint.
Qed.

Lemma digits_nonempty (n : N) : exists c s, digits n = String c s.
Proof.
  unfold digits. destruct n as [| p]; simpl.
  - eexists. eexists. reflexivity.
  - assert (H := DecimalPos.Unsigned.to_uint_nonnil p).
    destruct (Pos.to_uint p); try contradiction; simpl;
      eexists; eexists; reflexivity.
Qed.

Lemma digit_is_not (c c' : ascii) :
  is_digit c = true -> is_digit c' = false -> Ascii.eqb c c' = false.
Proof.
  intros Hc Hc'. destruct (Ascii.eqb_spec c c'); [| reflexivity].
  subst. congruence.
Qed.

Lemma fixed2_digits (s : string) (d1 d2 : ascii) :
  s <> EmptyString -> all_digits s = true ->
  is_digit d1 = true -> is_digit d2 = true ->
  fixed2_unsigned (s ++ "." ++ String d1 (String d2 EmptyString))%string = true.
Proof.
  intros Hne Hs H1 H2. induction s as [| c s IH]; [contradiction |].
  simpl in Hs. apply andb_true_iff in Hs. destruct Hs as [Hc Hs].
  set (t := ("." ++ String d1 (String d2 EmptyString))%string) in *.
  change (String c s ++ t)%string with (String c (s ++ t)%string).
  change (fixed2_unsigned (String c (s ++ t)))
    with (is_digit c && (decimals2 (s ++ t) || fixed2_unsigned (s ++ t))).
  rewrite Hc. simpl andb.
  destruct s as [| c' s].
  - subst t. simpl. now rewrite H1, H2.
  - rewrite IH by (discriminate || exact Hs). apply orb_true_r.
Qed.

(** [toFixed(2)] in its range writes two decimals. *)
Lemma two_decimals_toFixed2 (v : Q) :
  fixed_range v -> two_decimals (toFixed2 v) = true.
Proof.
  unfold fixed_range, toFixed2. intros Hv. cbv zeta.
  destruct (Qle_bool (inject_Z (10 ^ 21)) (Qabs v)) eqn:E.
  { apply Qle_bool_iff in E. lra. }
  set (n := Z.to_N (Qfloor (Qabs v * 100 + (1 # 2)))).
  assert (Hfix := fun s Hne Hs =>
            fixed2_digits s (digit (n / 10)) (digit n) Hne Hs
                          (is_digit_digit _) (is_digit_digit _)).
  destruct (digits_nonempty (n / 100)) as (c & s & Hds).
  assert (Hall := digits_all_digits (n / 100)).
  specialize (Hfix (digits (n / 100))). rewrite Hds in *.
  specialize (Hfix ltac:(discriminate) Hall).
  unfold minus_sign. destruct (Qle_bool 0 v).
  - cbn [String.append] in *. unfold two_decimals.
    simpl in Hall. apply andb_true_iff in Hall. destruct Hall as [Hc _].
    rewrite (digit_is_not c "-"%char Hc eq_refl). exact Hfix.
  - cbn [String.append] in *. unfold two_decimals.
    rewrite Ascii.eqb_refl. exact Hfix.
Qed.

Lemma all_digits_not_fixed2 (s : string) :
  all_digits s = true -> fixed2_unsigned s = false.
Proof.
  induction s as [| c s IH]; [reflexivity |].
  simpl. intros H. apply andb_true_iff in H. destruct H as [Hc Hs].
  rewrite Hc, (IH Hs), orb_false_r. simpl.
  destruct s as [| c0 [| d1 [| d2 [|]]]]; try reflexivity.
  simpl in Hs. apply andb_true_iff in Hs. destruct Hs as [Hc0 _].
  unfold decimals2. now rewrite (digit_is_not c0 "."%char Hc0 eq_refl).
Qed.

Lemma digits_not_two_decimals (n : N) : two_decimals (digits n) = false.
Proof.
  assert (Hall := digits_all_digits n).
  destruct (digits_nonempty n) as (c & s & Hds). rewrite Hds in *.
  unfold two_decimals.
  assert (Hc : is_digit c = true).
  { simpl in Hall. apply andb_true_iff in Hall. tauto. }
  rewrite (digit_is_not c "-"%char Hc eq_refl).
  now apply all_digits_not_fixed2.
Qed.

Lemma append_empty_r (s : string) : (s ++ EmptyString)%string = s.
Proof.
  induction s as [| c s IH]; simpl; [reflexivity | now rewrite IH].
Qed.

(** The default conversion writes a whole number as its digits. *)
Lemma Number_toString_integer (n : Z) :
  (0 <= n)%Z -> Number_toString (inject_Z n) = digits (Z.to_N n).
Proof.
  intros Hn. unfold Number_toString, minus_sign, inject_Z. cbv zeta.
  assert (Habs : Qabs (n # 1) = (n # 1)).
  { unfold Qabs. now rewrite Z.abs_eq. }
  rewrite Habs.
  assert (Hfloor : Qfloor (n # 1) = n).
  { unfold Qfloor. apply Z.div_1_r. }
  rewrite Hfloor.
  assert (Hle : Qle_bool 0 (n # 1) = true).
  { apply Qle_bool_iff. unfold Qle. simpl. lia. }
  rewrite Hle. simpl Qnum. simpl Qden.
  replace (Z.to_N (n - n * 1)) with 0%N by lia.
  simpl. apply append_empty_r.
Qed.

Lemma numericValues_app (config : PlateConfig) (ds : list Dot) :
  numericValues config ds
  = [ Number_toString (width config); Number_toString (height config);
      Number_toString (width config); Number_toString (height config);
      Number_toString (width config); Number_toString (height config) ]
    ++ flat_map circleValues ds.
Proof.
  unfold numericValues, svgPieces, interpolated.
  rewrite !flat_map_app. simpl. do 6 f_equal.
  rewrite app_nil_r. induction ds as [| d ds IH]; simpl; [reflexivity |].
  now rewrite IH.
Qed.

(** C8, as the source has it: each circle's cx, cy and r is written by
    [toFixed(2)], with exactly two decimals for a value below 10^21 in
    absolute value; the width and height of the document, the viewBox and the
    dimensions of the boundary rectangle are the six other numbers, written by
    the default conversion, which gives a whole number of millimetres as its
    digits alone, without decimals. *)
Theorem export_serialization (config : PlateConfig) (ds : list Dot) :
  numericValues config ds
  = [ Number_toString (width config); Number_toString (height config);
      Number_toString (width config); Number_toString (height config);
      Number_toString (width config); Number_toString (height config) ]
    ++ flat_map circleValues ds
  /\ (forall d, In d ds ->
        fixed_range (x d) -> fixed_range (y d) -> fixed_range (r d) ->
        forallb two_decimals (circleValues d) = true)
  /\ (forall n, (0 <= n)%Z -> width config = inject_Z n ->
        Number_toString (width config) = digits (Z.to_N n)
        /\ two_decimals (Number_toString (width config)) = false)
  /\ (forall n, (0 <= n)%Z -> height config = inject_Z n ->
        Number_toString (height config) = digits (Z.to_N n)
        /\ two_decimals (Number_toString (height config)) = false).
Proof.
  split; [apply numericValues_app |]. split; [| split].
  - intros d _ Hx Hy Hr. unfold circleValues. simpl.
    now rewrite !two_decimals_toFixed2.
  - intros n Hn ->. rewrite Number_toString_integer by exact Hn.
    split; [reflexivity | apply digits_not_two_decimals].
  - intros n Hn ->. rewrite Number_toString_integer by exact Hn.
    split; [reflexivity | apply digits_not_two_decimals].
Qed.

Lemma export_serialization_witness :
  forallb two_decimals (circleValues {| x := 14; y := 14; r := 1.75 |}) = true
  /\ Number_toString (width DEFAULT_CONFIG) = digits 500
  /\ two_decimals (Number_toString (width DEFAULT_CONFIG)) = false
  /\ Number_toString (height DEFAULT_CONFIG) = digits 500
  /\ two_decimals (Number_toString (height DEFAULT_CONFIG)) = false.
Proof.
  destruct (export_serialization DEFAULT_CONFIG
              [{| x := 14; y := 14; r := 1.75 |}]) as (_ & Hc & Hw & Hh).
  destruct (Hw 500%Z ltac:(lia) eq_refl) as [Hw1 Hw2].
  destruct (Hh 500%Z ltac:(lia) eq_refl) as [Hh1 Hh2].
  split; [| repeat split; assumption].
  apply Hc; [now left | reflexivity | reflexivity | reflexivity].
Defined.

(** C8, as the specification states it, fails on the default plate: the
    document has [width="500mm"], [height="500mm"], [viewBox="0 0 500 500"]
    and a rectangle of width [500] and height [500]; only the three numbers
    of the circle have two decimals. *)
Lemma export_dimensions_unformatted :
  numericValues DEFAULT_CONFIG [{| x := 14; y := 14; r := 1.75 |}]
  = [ "500"; "500"; "500"; "500"; "500"; "500"; "14.00"; "14.00"; "1.75" ]%string
  /\ ~ Forall (fun s => two_decimals s = true)
         (numericValues DEFAULT_CONFIG [{| x := 14; y := 14; r := 1.75 |}]).
Proof.
  split; [vm_compute; reflexivity |].
  intros H. apply Forall_inv in H. vm_compute in H. discriminate.
Qed.

(** * Further properties of the application *)

(** ** PreviewCanvas.tsx: fitting, zooming and panning *)

Lemma Math_min_spec (a b : Q) :
  (a <= b /\ Math_min a b = a) \/ (b < a /\ Math_min a b = b).
Proof.
  unfold Math_min. destruct (Qle_bool a b) eqn:E.
  - left. split; [now apply Qle_bool_iff | reflexivity].
  - right. split; [| reflexivity].
    apply Qnot_le_lt. intros H. apply Qle_bool_iff in H. congruence.
Qed.

Lemma Math_max_spec (a b : Q) :
  (a <= b /\ Math_max a b = b) \/ (b < a /\ Math_max a b = a).
Proof.
  unfold Math_max. destruct (Qle_bool a b) eqn:E.
  - left. split; [now apply Qle_bool_iff | reflexivity].
  - right. split; [| reflexivity].
    apply Qnot_le_lt. intros H. apply Qle_bool_iff in H. congruence.
Qed.

Lemma positive_iff (v : Q) : positive v = true <-> 0 < v.
Proof.
  unfold positive. rewrite negb_true_iff.
  destruct (Qle_bool v 0) eqn:E.
  - apply Qle_bool_iff in E. split; [discriminate | intros H; lra].
  - split; [intros _ | reflexivity].
    apply Qnot_le_lt. intros H. apply Qle_bool_iff in H. congruence.
Qed.

(** The fit scale of a container larger than the 80 pixels of padding: it is
    positive, at most 5, and the scaled plate is no larger than the container
    less the padding. *)
Lemma fitScale_range (clientWidth clientHeight : Q) (config : PlateConfig) :
  0 < width config -> 0 < height config ->
  80 < clientWidth -> 80 < clientHeight ->
  let fit := PreviewCanvas.fitScale clientWidth clientHeight config in
  0 < fit /\ fit <= 5 /\
  width config * fit <= clientWidth - 80 /\
  height config * fit <= clientHeight - 80 /\
  (fit == 5 \/ width config * fit == clientWidth - 80
   \/ height config * fit == clientHeight - 80).
Proof.
  intros Hw Hh Hcw Hch fit. subst fit. unfold PreviewCanvas.fitScale. cbv zeta.
  set (sx := (clientWidth - 80) / width config).
  set (sy := (clientHeight - 80) / height config).
  assert (Hsx : width config * sx == clientWidth - 80)
    by (subst sx; field; lra).
  assert (Hsy : height config * sy == clientHeight - 80)
    by (subst sy; field; lra).
  assert (Hsx0 : 0 < sx).
  { subst sx. apply Qlt_shift_div_l; lra. }
  assert (Hsy0 : 0 < sy).
  { subst sy. apply Qlt_shift_div_l; lra. }
  clearbody sx sy.
  assert (Hmono : forall a b c : Q, 0 < a -> b <= c -> a * b <= a * c).
  { intros a b c Ha Hbc. rewrite !(Qmult_comm a).
    apply Qmult_le_compat_r; lra. }
  destruct (Math_min_spec sx sy) as [[H1 ->] | [H1 ->]];
    [destruct (Math_min_spec sx 5) as [[H2 ->] | [H2 ->]]
    | destruct (Math_min_spec sy 5) as [[H2 ->] | [H2 ->]]].
  - assert (H3 := Hmono (height config) sx sy Hh H1).
    repeat split; try lra;
      first [left; lra | right; left; lra | right; right; lra].
  - assert (H3 := Hmono (width config) 5 sx Hw (Qlt_le_weak _ _ H2)).
    assert (H4 := Hmono (height config) 5 sy Hh ltac:(lra)).
    repeat split; try lra;
      first [left; lra | right; left; lra | right; right; lra].
  - assert (H3 := Hmono (width config) sy sx Hw (Qlt_le_weak _ _ H1)).
    repeat split; try lra;
      first [left; lra | right; left; lra | right; right; lra].
  - assert (H3 := Hmono (width config) 5 sx Hw ltac:(lra)).
    assert (H4 := Hmono (height config) 5 sy Hh (Qlt_le_weak _ _ H2)).
    repeat split; try lra;
      first [left; lra | right; left; lra | right; right; lra].
Qed.

(** X1: in a container larger than the padding, the view set when the
    dimensions of a plate within the cap of the sidebar change shows the
    whole plate at a scale in (0, 5]: on both axes the scaled plate lies
    strictly inside the container. *)
Theorem initial_view_fits (clientWidth clientHeight : Q) (config : PlateConfig) :
  0 < width config <= 999 -> 0 < height config <= 999 ->
  80 < clientWidth -> 80 < clientHeight ->
  let v := PreviewCanvas.initialView clientWidth clientHeight config in
  let s := PreviewCanvas.scale v in
  (0 < s /\ s <= 5) /\
  (0 < PreviewCanvas.offsetX v /\
   PreviewCanvas.offsetX v + width config * s < clientWidth) /\
  (0 < PreviewCanvas.offsetY v /\
   PreviewCanvas.offsetY v + height config * s < clientHeight).
Proof.
  intros [Hw _] [Hh _] Hcw Hch v s.
  destruct (fitScale_range clientWidth clientHeight config Hw Hh Hcw Hch)
    as (H0 & H5 & Hfw & Hfh & _).
  subst s v. unfold PreviewCanvas.initialView. cbv zeta.
  rewrite (proj2 (positive_iff _) H0). simpl.
  set (fit := PreviewCanvas.fitScale clientWidth clientHeight config) in *.
  qconst. repeat split; lra.
Qed.

Lemma initial_view_fits_witness :
  let v := PreviewCanvas.initialView 1000 800 DEFAULT_CONFIG in
  let s := PreviewCanvas.scale v in
  (0 < s /\ s <= 5) /\
  (0 < PreviewCanvas.offsetX v /\
   PreviewCanvas.offsetX v + width DEFAULT_CONFIG * s < 1000) /\
  (0 < PreviewCanvas.offsetY v /\
   PreviewCanvas.offsetY v + height DEFAULT_CONFIG * s < 800).
Proof.
  apply (initial_view_fits 1000 800 DEFAULT_CONFIG);
    first [reflexivity | split; [reflexivity | discriminate]].
Defined.

(** X2: the guard of the first effect: for a plate of non-zero width and
    height the view it sets has a positive scale in every container, even
    one smaller than the padding, and [resetView] sets the same view
    whenever the fit scale is positive. *)
Theorem initial_view_guard (clientWidth clientHeight : Q) (config : PlateConfig) :
  ~ width config == 0 -> ~ height config == 0 ->
  0 < PreviewCanvas.scale
        (PreviewCanvas.initialView clientWidth clientHeight config)
  /\ (0 < PreviewCanvas.fitScale clientWidth clientHeight config ->
      PreviewCanvas.resetView clientWidth clientHeight config
      = PreviewCanvas.initialView clientWidth clientHeight config).
Proof.
  intros _ _.
  unfold PreviewCanvas.initialView, PreviewCanvas.resetView. cbv zeta.
  destruct (positive (PreviewCanvas.fitScale clientWidth clientHeight config))
    eqn:E; simpl.
  - apply positive_iff in E. split; [exact E | reflexivity].
  - split; [lra |]. intros H. apply positive_iff in H. congruence.
Qed.

Lemma initial_view_guard_witness :
  0 < PreviewCanvas.scale (PreviewCanvas.initialView 60 60 DEFAULT_CONFIG)
  /\ PreviewCanvas.resetView 1000 800 DEFAULT_CONFIG
     = PreviewCanvas.initialView 1000 800 DEFAULT_CONFIG.
Proof.
  split.
  - apply (initial_view_guard 60 60 DEFAULT_CONFIG); discriminate.
  - apply (proj2 (initial_view_guard 1000 800 DEFAULT_CONFIG
                    ltac:(discriminate) ltac:(discriminate))).
    reflexivity.
Defined.

(** X3: the wheel keeps the scale between 0.1 and 50, whatever the scale
    before and the wheel delta, and does not move the offsets; a delta of 0
    leaves a rendered scale of that range as it is.  The new scale comes from
    the rendered view alone: of two wheel events handled by the same render,
    the second replaces the scale of the first. *)
Theorem wheel_clamps_scale (deltaY deltaY' : Q)
    (view prev : PreviewCanvas.ViewState) :
  (0.1 <= PreviewCanvas.scale (PreviewCanvas.handleWheel deltaY view prev)
   /\ PreviewCanvas.scale (PreviewCanvas.handleWheel deltaY view prev) <= 50)
  /\ PreviewCanvas.offsetX (PreviewCanvas.handleWheel deltaY view prev)
     = PreviewCanvas.offsetX prev
  /\ PreviewCanvas.offsetY (PreviewCanvas.handleWheel deltaY view prev)
     = PreviewCanvas.offsetY prev
  /\ (deltaY == 0 ->
      0.1 <= PreviewCanvas.scale view -> PreviewCanvas.scale view <= 50 ->
      PreviewCanvas.scale (PreviewCanvas.handleWheel deltaY view prev)
      == PreviewCanvas.scale view)
  /\ PreviewCanvas.handleWheel deltaY view
       (PreviewCanvas.handleWheel deltaY' view prev)
     = PreviewCanvas.handleWheel deltaY view prev.
Proof.
  unfold PreviewCanvas.handleWheel. cbv zeta. simpl.
  set (s := PreviewCanvas.scale view * (1 + - deltaY * 0.001)).
  assert (Hs : deltaY == 0 -> s == PreviewCanvas.scale view).
  { intros Hd. subst s. rewrite Hd. ring. }
  clearbody s.
  destruct (Math_min_spec 50 s) as [[H1 ->] | [H1 ->]];
    [destruct (Math_max_spec 0.1 50) as [[H2 ->] | [H2 ->]]
    | destruct (Math_max_spec 0.1 s) as [[H2 ->] | [H2 ->]]];
    repeat split; try lra; intros Hd Hlo Hhi; specialize (Hs Hd); lra.
Qed.

Lemma wheel_clamps_scale_witness :
  PreviewCanvas.scale
    (PreviewCanvas.handleWheel 0
       {| PreviewCanvas.scale := 2; PreviewCanvas.offsetX := 30;
          PreviewCanvas.offsetY := 40 |}
       {| PreviewCanvas.scale := 3; PreviewCanvas.offsetX := 35;
          PreviewCanvas.offsetY := 45 |})
  == 2.
Proof.
  apply (wheel_clamps_scale 0 120
           {| PreviewCanvas.scale := 2; PreviewCanvas.offsetX := 30;
              PreviewCanvas.offsetY := 40 |}
           {| PreviewCanvas.scale := 3; PreviewCanvas.offsetX := 35;
              PreviewCanvas.offsetY := 45 |});
    simpl; lra.
Defined.

(** While the button is held, [isDragging] and [dragStart] stay as the
    mouse down set them, and the scale as it was. *)
Lemma drag_moves (positions : list (Q * Q)) :
  forall p,
    PreviewCanvas.isDragging p = true ->
    let p' := fold_left PreviewCanvas.handleMouse (mouseMoves positions) p in
    PreviewCanvas.isDragging p' = true
    /\ PreviewCanvas.dragStart p' = PreviewCanvas.dragStart p
    /\ PreviewCanvas.scale (PreviewCanvas.view p')
       = PreviewCanvas.scale (PreviewCanvas.view p).
Proof.
  induction positions as [| pos positions IH]; intros p Hdrag.
  - simpl. repeat split. exact Hdrag.
  - change (mouseMoves (pos :: positions))
      with (PreviewCanvas.MouseMove (fst pos) (snd pos) :: mouseMoves positions).
    cbn [fold_left PreviewCanvas.handleMouse].
    set (q := PreviewCanvas.handleMouseMove (fst pos) (snd pos) p).
    assert (Hq : PreviewCanvas.isDragging q = true
                 /\ PreviewCanvas.dragStart q = PreviewCanvas.dragStart p
                 /\ PreviewCanvas.scale (PreviewCanvas.view q)
                    = PreviewCanvas.scale (PreviewCanvas.view p)).
    { subst q. unfold PreviewCanvas.handleMouseMove. rewrite Hdrag. simpl.
      repeat split; exact Hdrag. }
    destruct Hq as (Hq1 & Hq2 & Hq3).
    destruct (IH q Hq1) as (H1 & H2 & H3).
    rewrite <- Hq2, <- Hq3. repeat split; assumption.
Qed.

(** X5: a drag sets the offsets from its two ends alone: after a mouse
    down and any moves, each offset is the last position of the mouse less
    the anchor taken at the mouse down (its position less the offset then),
    whatever the positions in between; the scale is the same. *)
Theorem drag_pans (p : PreviewCanvas.Preview) (downX downY : Q)
    (positions : list (Q * Q)) (lastX lastY : Q) :
  PreviewCanvas.view
    (fold_left PreviewCanvas.handleMouse
       (PreviewCanvas.MouseDown downX downY
        :: mouseMoves (positions ++ [(lastX, lastY)])) p)
  = {| PreviewCanvas.scale := PreviewCanvas.scale (PreviewCanvas.view p);
       PreviewCanvas.offsetX :=
         lastX - (downX - PreviewCanvas.offsetX (PreviewCanvas.view p));
       PreviewCanvas.offsetY :=
         lastY - (downY - PreviewCanvas.offsetY (PreviewCanvas.view p)) |}.
Proof.
  unfold mouseMoves. rewrite map_app.
  cbn [fold_left PreviewCanvas.handleMouse]. rewrite fold_left_app.
  fold (mouseMoves positions).
  destruct (drag_moves positions (PreviewCanvas.handleMouseDown downX downY p)
              eq_refl) as (H1 & H2 & H3).
  cbn [map fold_left PreviewCanvas.handleMouse fst snd].
  unfold PreviewCanvas.handleMouseMove. rewrite H1, H2, H3. reflexivity.
Qed.

(** X6: without the button held, the mouse moves nothing: after a mouse up
    (or leave), any moves leave the view as it is. *)
Theorem hover_keeps_view (p : PreviewCanvas.Preview) (positions : list (Q * Q)) :
  PreviewCanvas.view
    (fold_left PreviewCanvas.handleMouse
       (PreviewCanvas.MouseUp :: mouseMoves positions) p)
  = PreviewCanvas.view p.
Proof.
  cbn [fold_left PreviewCanvas.handleMouse].
  assert (H : forall q, PreviewCanvas.isDragging q = false ->
            fold_left PreviewCanvas.handleMouse (mouseMoves positions) q = q).
  { induction positions as [| pos positions IH]; intros q Hq; simpl.
    - reflexivity.
    - unfold PreviewCanvas.handleMouseMove. rewrite Hq. now apply IH. }
  rewrite H by reflexivity. reflexivity.
Qed.

(** ** PreviewCanvas.tsx: the viewport culling *)

Lemma filter_all_below (padMinX padMaxX padMinY padMaxY : Q) (l : list Dot) :
  Forall (fun d => padMaxY < y d) l ->
  filter (inPad padMinX padMaxX padMinY padMaxY) l = [].
Proof.
  induction 1 as [| d l Hd Hl IH]; simpl; [reflexivity |].
  rewrite IH. unfold inPad.
  assert (E : Qle_bool (y d) padMaxY = false).
  { destruct (Qle_bool (y d) padMaxY) eqn:E; [| reflexivity].
    apply Qle_bool_iff in E. lra. }
  rewrite E. now rewrite andb_false_r.
Qed.

(** On dots whose [y] never decreases, leaving the loop at the first dot
    below the viewport loses nothing: the loop draws the dots of the padded
    viewport. *)
Lemma holesLoop_filter (padMinX padMaxX padMinY padMaxY : Q) (l : list Dot) :
  StronglySorted (fun a b => y a <= y b) l ->
  PreviewCanvas.holesLoop padMinX padMaxX padMinY padMaxY l
  = filter (inPad padMinX padMaxX padMinY padMaxY) l.
Proof.
  induction 1 as [| d l Hl IH Hd]; simpl; [reflexivity |].
  unfold inPad at 1.
  destruct (Qle_bool (y d) padMaxY) eqn:Emax; simpl.
  - destruct (Qle_bool padMinY (y d)) eqn:Emin; simpl.
    + destruct (Qle_bool padMinX (x d)) eqn:Exmin; simpl.
      * destruct (Qle_bool (x d) padMaxX) eqn:Exmax; simpl; now rewrite IH.
      * exact IH.
    + rewrite IH. now rewrite !andb_false_r.
  - rewrite andb_false_r. symmetry. apply filter_all_below.
    eapply Forall_impl; [| exact Hd]. simpl. intros b Hb.
    assert (H : padMaxY < y d).
    { apply Qnot_le_lt. intros H. apply Qle_bool_iff in H. congruence. }
    lra.
Qed.

Lemma StronglySorted_weaken {A : Type} (R R' : A -> A -> Prop) (l : list A) :
  (forall a b, R a b -> R' a b) ->
  StronglySorted R l -> StronglySorted R' l.
Proof.
  intros HR. induction 1 as [| a l Hl IH Ha]; constructor.
  - exact IH.
  - eapply Forall_impl; [| exact Ha]. intros b. apply HR.
Qed.

(** X8: on a Dot Set in row-major order, the draw loop with its [break]
    draws exactly the dots whose centre is in the padded viewport, in the
    order of the Dot Set. *)
Theorem culling_draws_padded_viewport (v : PreviewCanvas.ViewState)
    (clientWidth clientHeight : Q) (config : PlateConfig) (ds : list Dot) :
  StronglySorted row_major ds ->
  PreviewCanvas.drawHoles v clientWidth clientHeight config ds
  = filter (inPad (PreviewCanvas.visibleMinX v - PreviewCanvas.maxR config)
                  (PreviewCanvas.visibleMaxX v clientWidth
                   + PreviewCanvas.maxR config)
                  (PreviewCanvas.visibleMinY v - PreviewCanvas.maxR config)
                  (PreviewCanvas.visibleMaxY v clientHeight
                   + PreviewCanvas.maxR config))
           ds.
Proof.
  intros Hsorted. unfold PreviewCanvas.drawHoles. cbv zeta.
  apply holesLoop_filter.
  apply (StronglySorted_weaken row_major); [| exact Hsorted].
  intros a b [Hy _]. exact Hy.
Qed.

Lemma culling_draws_padded_viewport_witness :
  let v := {| PreviewCanvas.scale := 1; PreviewCanvas.offsetX := 0;
              PreviewCanvas.offsetY := 0 |} in
  let ds := [ {| x := 5; y := 5; r := 1 |}; {| x := 15; y := 5; r := 1 |};
              {| x := 5; y := 15; r := 1 |}; {| x := 5; y := 900; r := 1 |} ] in
  PreviewCanvas.drawHoles v 100 100 DEFAULT_CONFIG ds
  = filter (inPad (PreviewCanvas.visibleMinX v - PreviewCanvas.maxR DEFAULT_CONFIG)
                  (PreviewCanvas.visibleMaxX v 100
                   + PreviewCanvas.maxR DEFAULT_CONFIG)
                  (PreviewCanvas.visibleMinY v - PreviewCanvas.maxR DEFAULT_CONFIG)
                  (PreviewCanvas.visibleMaxY v 100
                   + PreviewCanvas.maxR DEFAULT_CONFIG))
           ds.
Proof.
  intros v ds. apply (culling_draws_padded_viewport v 100 100 DEFAULT_CONFIG ds).
  repeat constructor; simpl; try lra; intros _; lra.
Defined.

(** X9: the preview of a run, drawn with the configuration of the run at a
    positive scale: a hole of the Dot Set whose centre is in the visible
    part of the plate is drawn, and nothing is drawn that is not in the Dot
    Set. *)
Theorem preview_draws_visible_holes (v : PreviewCanvas.ViewState)
    (clientWidth clientHeight : Q) (config : PlateConfig) (data : list byte) :
  0 < PreviewCanvas.scale v ->
  0 < spacing config ->
  0 <= maxHoleSize config ->
  let drawn :=
    PreviewCanvas.drawHoles v clientWidth clientHeight config
                            (generate config data) in
  (forall d, In d drawn -> In d (generate config data))
  /\ (forall d, In d (generate config data) ->
        centre_visible v clientWidth clientHeight d -> In d drawn).
Proof.
  intros _ Hsp Hmax drawn. subst drawn.
  unfold PreviewCanvas.drawHoles. cbv zeta.
  rewrite holesLoop_filter.
  2:{ apply (StronglySorted_weaken row_major);
        [intros a b [Hy _]; exact Hy | now apply generate_sorted]. }
  split.
  - intros d Hd. apply filter_In in Hd. tauto.
  - intros d Hd ((Hx1 & Hx2) & Hy1 & Hy2). apply filter_In.
    split; [exact Hd |].
    unfold inPad, PreviewCanvas.maxR.
    rewrite !andb_true_iff, !Qle_bool_iff. qconst. repeat split; lra.
Qed.

Lemma preview_draws_visible_holes_witness :
  let v := {| PreviewCanvas.scale := 1; PreviewCanvas.offsetX := 0;
              PreviewCanvas.offsetY := 0 |} in
  let ds := generate (scenario_config 128 circle) (half_luminance_image 100) in
  In (hd {| x := 0; y := 0; r := 0 |} ds)
     (PreviewCanvas.drawHoles v 100 100 (scenario_config 128 circle) ds).
Proof.
  intros v ds.
  apply (proj2 (preview_draws_visible_holes v 100 100
                  (scenario_config 128 circle) (half_luminance_image 100)
                  eq_refl eq_refl ltac:(discriminate))).
  - vm_compute. left. reflexivity.
  - repeat split; vm_compute; discriminate.
Defined.

(** ** Sidebar: the configuration controls *)

Lemma cap999_le (value : Q) : Sidebar.cap999 value <= 999.
Proof.
  unfold Sidebar.cap999. destruct (Qle_bool value 999) eqn:E; simpl.
  - now apply Qle_bool_iff.
  - lra.
Qed.

Lemma handleChange_capped (c : Sidebar.change) (prev : PlateConfig) :
  width prev <= 999 -> height prev <= 999 ->
  width (Sidebar.handleChange c prev) <= 999
  /\ height (Sidebar.handleChange c prev) <= 999.
Proof.
  intros Hw Hh. destruct c; simpl; split;
    try assumption; apply cap999_le.
Qed.

(** X10: the controls never bring the plate above 999 mm: from a
    configuration with width and height of at most 999, any sequence of
    [handleChange] calls keeps both at most 999. *)
Theorem sidebar_caps_dimensions (changes : list Sidebar.change)
    (config : PlateConfig) :
  width config <= 999 -> height config <= 999 ->
  let config' :=
    fold_left (fun c change => Sidebar.handleChange change c) changes config in
  width config' <= 999 /\ height config' <= 999.
Proof.
  revert config. induction changes as [| c changes IH];
    intros config Hw Hh; simpl.
  - now split.
  - destruct (handleChange_capped c config Hw Hh) as [Hw' Hh'].
    exact (IH _ Hw' Hh').
Qed.

Lemma sidebar_caps_dimensions_witness :
  let config' :=
    fold_left (fun c change => Sidebar.handleChange change c)
      [Sidebar.Width 1200; Sidebar.Margin 20; Sidebar.Height 300]
      DEFAULT_CONFIG in
  width config' <= 999 /\ height config' <= 999.
Proof.
  apply (sidebar_caps_dimensions
           [Sidebar.Width 1200; Sidebar.Margin 20; Sidebar.Height 300]
           DEFAULT_CONFIG); discriminate.
Defined.

(** X11: the two validations of a typed number agree: capping in the
    input ([max={999}]) and then in [handleChange] stores what
    [handleChange] alone stores, for every control and every number. *)
Theorem input_cap_redundant (c : Sidebar.change) (prev : PlateConfig) :
  Sidebar.handleChange (Sidebar.typed c) prev = Sidebar.handleChange c prev.
Proof.
  destruct c as [v | v | v | v | v | v | b]; try reflexivity; simpl;
    unfold Sidebar.NumberInput_onChange, Sidebar.cap999; simpl;
    destruct (Qle_bool v 999) eqn:E; simpl; rewrite ?E; reflexivity.
Qed.


(** ** App.tsx: luminance and radius *)

(** X12: the pixel of the smallest hole: a white pixel gets the radius
    [minRad], that is minHoleSize/2, and with [inverted] set it is a black
    pixel that gets it. *)
Theorem white_pixel_radius (config : PlateConfig) :
  (inverted config = false ->
   mapRadius config (luminance 255 255 255 / 255) == minRad config)
  /\ (inverted config = true ->
      mapRadius config (luminance 0 0 0 / 255) == minRad config).
Proof.
  rewrite !mapRadius_unfold. unfold luminance, minRad.
  split; intros ->; field.
Qed.

Lemma white_pixel_radius_witness :
  mapRadius DEFAULT_CONFIG (luminance 255 255 255 / 255)
  == minRad DEFAULT_CONFIG.
Proof.
  apply (proj1 (white_pixel_radius DEFAULT_CONFIG)). reflexivity.
Defined.

(** X13: a pixel that is at least as bright in each channel gets a hole that
    is no larger, and with [inverted] set one that is no smaller, when
    minHoleSize <= maxHoleSize. *)
Theorem brighter_pixel_radius (config : PlateConfig)
    (r1 g1 b1 r2 g2 b2 : Q) :
  minHoleSize config <= maxHoleSize config ->
  r1 <= r2 -> g1 <= g2 -> b1 <= b2 ->
  let radius1 := mapRadius config (luminance r1 g1 b1 / 255) in
  let radius2 := mapRadius config (luminance r2 g2 b2 / 255) in
  if inverted config then radius1 <= radius2 else radius2 <= radius1.
Proof.
  intros Hcfg Hr Hg Hb radius1 radius2. subst radius1 radius2.
  set (s1 := luminance r1 g1 b1 / 255). set (s2 := luminance r2 g2 b2 / 255).
  assert (Hs : s1 <= s2).
  { subst s1 s2. unfold luminance. qconst. lra. }
  clearbody s1 s2.
  assert (Hprod : 0 <= (s2 - s1) * (maxHoleSize config - minHoleSize config))
    by (apply Qmult_le_0_compat; lra).
  destruct (inverted config) eqn:Hinv; rewrite !mapRadius_unfold, Hinv;
    qconst; lra.
Qed.

Lemma brighter_pixel_radius_witness :
  mapRadius DEFAULT_CONFIG (luminance 200 200 200 / 255)
  <= mapRadius DEFAULT_CONFIG (luminance 10 20 30 / 255).
Proof.
  apply (brighter_pixel_radius DEFAULT_CONFIG 10 20 30 200 200 200);
    discriminate.
Defined.

(** ** App.tsx and Sidebar: the grid under a change of spacing *)

Lemma div_le_spacing (e s1 s2 : Q) :
  0 <= e -> 0 < s1 -> s1 <= s2 -> e / s2 <= e / s1.
Proof.
  intros He Hs1 Hs12.
  apply Qle_shift_div_r; [lra |].
  assert (Hq : 0 <= e / s1) by (apply Qle_shift_div_l; lra).
  assert (He1 : e / s1 * s1 == e) by (field; lra).
  assert (Hm : 0 <= e / s1 * (s2 - s1)) by (apply Qmult_le_0_compat; lra).
  lra.
Qed.

(** X14: moving the spacing slider up never adds a column or a row: for
    positive spacings [s1 <= s2], the grid at spacing [s2] has at most the
    columns and rows of the grid at spacing [s1], the other fields being the
    same. *)
Theorem coarser_spacing_smaller_grid (config : PlateConfig) (s1 s2 : Q) :
  0 < s1 -> s1 <= s2 ->
  (cols (Sidebar.handleChange (Sidebar.Spacing s2) config)
   <= cols (Sidebar.handleChange (Sidebar.Spacing s1) config))%Z
  /\ (rows (Sidebar.handleChange (Sidebar.Spacing s2) config)
      <= rows (Sidebar.handleChange (Sidebar.Spacing s1) config))%Z.
Proof.
  intros Hs1 Hs12. unfold cols, rows, effW, effH.
  cbn [Sidebar.handleChange spacing width height margin].
  split; apply Qfloor_resp_le, div_le_spacing;
    try assumption; apply max0_nonneg.
Qed.

Lemma coarser_spacing_smaller_grid_witness :
  (cols (Sidebar.handleChange (Sidebar.Spacing 12) DEFAULT_CONFIG)
   <= cols (Sidebar.handleChange (Sidebar.Spacing 8) DEFAULT_CONFIG))%Z
  /\ (rows (Sidebar.handleChange (Sidebar.Spacing 12) DEFAULT_CONFIG)
      <= rows (Sidebar.handleChange (Sidebar.Spacing 8) DEFAULT_CONFIG))%Z.
Proof.
  apply (coarser_spacing_smaller_grid DEFAULT_CONFIG 8 12);
    [reflexivity | discriminate].
Defined.

(** ** App.tsx: the dot of a cell *)

Lemma cellDot_facts (config : PlateConfig) (data : list byte) (ncols : Z)
    (yi xi : nat) (d : Dot) :
  0 <= minHoleSize config <= maxHoleSize config ->
  cellDot config data ncols yi xi = Some d ->
  x d = physX config xi /\ y d = physY config yi /\
  minHoleSize config / 2 <= r d <= maxHoleSize config / 2.
Proof.
  intros Hcfg Hd. apply cellDot_some in Hd. destruct Hd as (s & Hs & _ & ->).
  simpl. repeat split;
    apply (mapRadius_range config s (sample_range _ _ _ Hs) Hcfg).
Qed.

(** ** App.tsx: what the loop reads of the pixel buffer *)

Lemma flat_map_ext_in {A B : Type} (f g : A -> list B) (l : list A) :
  (forall a, In a l -> f a = g a) -> flat_map f l = flat_map g l.
Proof.
  induction l as [| a l IH]; intros H; simpl; [reflexivity |].
  rewrite (H a (or_introl eq_refl)), IH; [reflexivity |].
  intros b Hb. apply H. now right.
Qed.

Lemma channel_agree (data data' : list byte) (idx : Z) :
  (forall i, (i mod 4 <> 3)%nat -> nth_error data i = nth_error data' i) ->
  (0 <= idx)%Z -> (idx mod 4 <> 3)%Z ->
  channel data idx = channel data' idx.
Proof.
  intros Hagree H0 Hmod. unfold channel.
  destruct (idx <? 0)%Z; [reflexivity |].
  rewrite (Hagree (Z.to_nat idx)); [reflexivity |].
  intros H. apply Hmod.
  rewrite <- (Z2Nat.id idx H0).
  change 4%Z with (Z.of_nat 4). rewrite <- Nat2Z.inj_mod, H. reflexivity.
Qed.

Lemma cellDot_agree (config : PlateConfig) (data data' : list byte)
    (ncols : Z) (yi xi : nat) :
  (forall i, (i mod 4 <> 3)%nat -> nth_error data i = nth_error data' i) ->
  (0 <= ncols)%Z ->
  cellDot config data ncols yi xi = cellDot config data' ncols yi xi.
Proof.
  intros Hagree Hcols. unfold cellDot, sample.
  set (idx := cellIndex ncols yi xi).
  assert (H0 : (0 <= idx)%Z) by (subst idx; unfold cellIndex; nia).
  assert (Hm : (idx mod 4 = 0)%Z).
  { subst idx. unfold cellIndex. apply Z.mod_mul. discriminate. }
  assert (Hm1 : ((idx + 1) mod 4 = 1)%Z).
  { subst idx. unfold cellIndex. rewrite Z.add_comm, Z.mod_add by discriminate.
    reflexivity. }
  assert (Hm2 : ((idx + 2) mod 4 = 2)%Z).
  { subst idx. unfold cellIndex. rewrite Z.add_comm, Z.mod_add by discriminate.
    reflexivity. }
  rewrite (channel_agree data data' idx Hagree) by lia.
  rewrite (channel_agree data data' (idx + 1) Hagree) by lia.
  rewrite (channel_agree data data' (idx + 2) Hagree) by lia.
  reflexivity.
Qed.

(** X17: the loop never reads the alpha channel: two buffers that agree on
    every byte but the fourth of each pixel give the same dots. *)
Theorem alpha_channel_ignored (config : PlateConfig) (data data' : list byte) :
  (forall i, (i mod 4 <> 3)%nat -> nth_error data i = nth_error data' i) ->
  generate config data = generate config data'.
Proof.
  intros Hagree. rewrite !generate_rows.
  apply flat_map_ext_in. intros yi _. unfold rowDots.
  apply flat_map_ext_in. intros xi Hxi. apply in_seq in Hxi.
  f_equal. apply cellDot_agree; [exact Hagree | lia].
Qed.

Lemma alpha_channel_ignored_witness :
  generate (scenario_config 128 circle) (half_luminance_image 100)
  = generate (scenario_config 128 circle)
             (List.concat (repeat [x16; xce; x00; x00] 100)).
Proof.
  apply (alpha_channel_ignored (scenario_config 128 circle)).
  intros i Hi.
  assert (Hall : forall n i,
            (i mod 4 <> 3)%nat ->
            nth_error (half_luminance_image n) i
            = nth_error (List.concat (repeat [x16; xce; x00; x00] n)) i).
  { clear. induction n as [| n IH]; intros i Hi; [reflexivity |].
    unfold half_luminance_image in *. simpl repeat. simpl List.concat.
    destruct i as [| [| [| [| i]]]]; try reflexivity.
    - exfalso. apply Hi. reflexivity.
    - simpl. apply IH. intros H. apply Hi.
      change (S (S (S (S i)))) with (4 + i)%nat.
      rewrite <- Nat.Div0.add_mod_idemp_l. simpl. exact H. }
  apply Hall. exact Hi.
Defined.

(** ** App.tsx: progress, tokens and the export button *)

Lemma whileRows_yield (budget : nat) :
  forall run,
    snd (whileRows budget run) = false ->
    (Z.of_nat (run_y (fst (whileRows budget run)))
     < run_rows (fst (whileRows budget run)))%Z.
Proof.
  induction budget as [| budget IH]; intros run; simpl;
    destruct (Z.ltb_spec (Z.of_nat (run_y run)) (run_rows run)); simpl;
    try discriminate.
  - intros _. assumption.
  - apply IH.
Qed.

Lemma progressAt_range (yi : nat) (nrows : Z) :
  (Z.of_nat yi < nrows)%Z -> (0 <= progressAt yi nrows <= 100)%Z.
Proof.
  intros Hlt. unfold progressAt, Math_round.
  assert (Hn : 0 < inject_Z nrows).
  { change 0 with (inject_Z 0). rewrite <- Zlt_Qlt. lia. }
  assert (Hy := inject_nat_nonneg yi).
  assert (Hyn : inject_Z (Z.of_nat yi) < inject_Z nrows)
    by (rewrite <- Zlt_Qlt; exact Hlt).
  assert (H0 : 0 <= inject_Z (Z.of_nat yi) / inject_Z nrows)
    by (apply Qle_shift_div_l; lra).
  assert (H1 : inject_Z (Z.of_nat yi) / inject_Z nrows < 1)
    by (apply Qlt_shift_div_r; lra).
  assert (Hr := round_unit round64 round64_le round64_0 round64_1 _
                  (conj H0 (Qlt_le_weak _ _ H1))).
  set (q := round64 (inject_Z (Z.of_nat yi) / inject_Z nrows)) in *.
  clearbody q. destruct Hr as [Hr0 Hr1]. clear H0 H1.
  assert (Hq0 : 0 <= round64 (q * 100)).
  { apply (round_nonneg round64 round64_le round64_0). lra. }
  assert (Hq1 : round64 (q * 100) <= 100).
  { apply Qle_trans with (round64 100); [apply round64_le; lra |].
    vm_compute. discriminate. }
  set (p := round64 (q * 100)) in *. clearbody p.
  split.
  - change 0%Z with (Qfloor 0). apply Qfloor_resp_le. lra.
  - change 100%Z with (Qfloor (201 # 2)). apply Qfloor_resp_le. lra.
Qed.

Lemma processChunk_progress (budget : nat) (run : Run) (app : App) :
  (0 <= progress app <= 100)%Z ->
  (0 <= progress (processChunk budget run app) <= 100)%Z.
Proof.
  intros Hp. unfold processChunk.
  destruct (negb (processIdRef app =? currentProcessId run)%nat); [exact Hp |].
  assert (Hy := whileRows_yield budget run).
  destruct (whileRows budget run) as [run' [|]]; simpl in *; [lia |].
  apply progressAt_range. now apply Hy.
Qed.

Lemma onload_progress (getContext : option (string -> Z -> Z -> list byte))
    (id : nat) (config : PlateConfig) (budget : nat) (app : App) :
  (0 <= progress app <= 100)%Z ->
  (0 <= progress (onload getContext id config budget app) <= 100)%Z.
Proof.
  intros Hp. unfold onload.
  destruct (negb (processIdRef app =? id)%nat); [exact Hp |].
  destruct getContext as [getImageData |]; [| exact Hp].
  destruct (degenerate config); [exact Hp |]. cbv zeta.
  destruct (IndexSizeError (cols config) (rows config)); [exact Hp |].
  now apply processChunk_progress.
Qed.

Lemma step_progress (getContext : option (string -> Z -> Z -> list byte))
    (app : App) (e : event) :
  (0 <= progress app <= 100)%Z ->
  (0 <= progress (step getContext app e) <= 100)%Z.
Proof.
  intros Hp. destruct e as [config imageSrc budget | budget | budget]; simpl.
  - unfold processImage.
    destruct (String.eqb imageSrc EmptyString); [exact Hp |]. cbv zeta.
    match goal with
    | |- context [if ?c then _ else _] => destruct c
    end; [apply onload_progress |]; simpl; lia.
  - destruct (img_complete app); [exact Hp |].
    destruct (img_onload app) as [[id config] |];
      [apply onload_progress |]; exact Hp.
  - destruct (animationFrames app) as [| run rest]; [exact Hp |].
    apply processChunk_progress. exact Hp.
Qed.

(** X19: whatever happens, the progress shown is a percentage: in every
    state the application reaches, through any runs, loads and frames, with
    any clock, the progress is between 0 and 100. *)
Theorem progress_is_percentage
    (getContext : option (string -> Z -> Z -> list byte)) (tr : list event) :
  (0 <= progress (run_events getContext initial tr) <= 100)%Z.
Proof.
  assert (H : forall app, (0 <= progress app <= 100)%Z ->
            (0 <= progress (run_events getContext app tr) <= 100)%Z).
  { induction tr as [| e tr IH]; intros app Hp; simpl.
    - exact Hp.
    - apply IH. now apply step_progress. }
  apply H. simpl. lia.
Qed.

Lemma processChunk_token (budget : nat) (run : Run) (app : App) :
  processIdRef (processChunk budget run app) = processIdRef app.
Proof.
  unfold processChunk.
  destruct (negb (processIdRef app =? currentProcessId run)%nat);
    [reflexivity |].
  destruct (whileRows budget run) as [run' [|]]; reflexivity.
Qed.

Lemma onload_token (getContext : option (string -> Z -> Z -> list byte))
    (id : nat) (config : PlateConfig) (budget : nat) (app : App) :
  processIdRef (onload getContext id config budget app) = processIdRef app.
Proof.
  unfold onload.
  destruct (negb (processIdRef app =? id)%nat); [reflexivity |].
  destruct getContext as [getImageData |]; [| reflexivity].
  destruct (degenerate config); [reflexivity |]. cbv zeta.
  destruct (IndexSizeError (cols config) (rows config)); [reflexivity |].
  apply processChunk_token.
Qed.

(** X20: the token counts the runs: over any trace the token grows by the
    number of [processImage] calls that had an image source, and by nothing
    else; no load event and no frame changes it. *)
Theorem token_counts_runs
    (getContext : option (string -> Z -> Z -> list byte)) (tr : list event)
    (app : App) :
  processIdRef (run_events getContext app tr)
  = (processIdRef app + starts tr)%nat.
Proof.
  revert app. induction tr as [| e tr IH]; intros app.
  - simpl. unfold starts. simpl. lia.
  - change (run_events getContext app (e :: tr))
      with (run_events getContext (step getContext app e) tr).
    rewrite IH. unfold starts.
    destruct e as [config imageSrc budget | budget | budget]; simpl.
    + unfold processImage.
      destruct (String.eqb imageSrc EmptyString); simpl; [lia |].
      match goal with
      | |- context [if ?c then _ else _] => destruct c
      end; [rewrite onload_token |]; simpl; lia.
    + destruct (img_complete app); [lia |].
      destruct (img_onload app) as [[id config] |];
        [rewrite onload_token |]; simpl; lia.
    + destruct (animationFrames app) as [| run rest]; [lia |].
      rewrite processChunk_token. simpl. lia.
Qed.

(** X21: what can be exported is a finished pattern: after a run B has been
    started and no later one, whenever the export button is enabled (not
    processing, at least one dot), the Dot Set is the one an uninterrupted
    run on B's inputs publishes, never the Dot Set of an earlier run nor a
    part of B's. *)
Theorem export_only_finished_run
    (getContext : option (string -> Z -> Z -> list byte))
    (trA : list event) (config : PlateConfig) (imageSrc : string)
    (budget : nat) (trB : list event) :
  imageSrc <> EmptyString ->
  forallb (fun e => negb (is_start e)) trB = true ->
  let after :=
    run_events getContext (run_events getContext initial trA)
               (ProcessImage config imageSrc budget :: trB) in
  Sidebar.exportDisabled (processing after) (List.length (dots after)) = false ->
  published getContext config imageSrc = Some (dots after)
  /\ svgContent config (dots after) <> None.
Proof.
  intros Hsrc HtrB after Henabled.
  assert (Hbounded : tokens_bounded (run_events getContext initial trA))
    by (apply run_events_bounded, initial_bounded).
  destruct (processImage_current getContext config imageSrc budget _ Hsrc
              Hbounded) as (ph0 & Hph0).
  destruct (events_current getContext _ _ config imageSrc trB HtrB ph0 _ Hph0)
    as (ph & Hview & _).
  change (run_events getContext
            (processImage getContext config imageSrc budget
               (run_events getContext initial trA)) trB)
    with after in Hview.
  unfold Sidebar.exportDisabled in Henabled.
  apply orb_false_iff in Henabled. destruct Henabled as [Hproc Hcount].
  unfold view in Hview.
  assert (Hpub : published getContext config imageSrc = Some (dots after)).
  { destruct ph as [| yi |]; simpl in Hview.
    - injection Hview as _ _ Hp _. congruence.
    - injection Hview as _ _ Hp _. congruence.
    - destruct (published getContext config imageSrc) as [ds |].
      + injection Hview as _ Hd _ _. now rewrite Hd.
      + injection Hview as _ _ Hp _. congruence. }
  split; [exact Hpub |].
  destruct (dots after); [discriminate | discriminate].
Qed.

Lemma export_only_finished_run_witness :
  let after :=
    run_events (Some uniform_canvas) (run_events (Some uniform_canvas) initial [])
      (ProcessImage (scenario_config 128 circle) "a"%string 0 :: [Load 10]) in
  published (Some uniform_canvas) (scenario_config 128 circle) "a"%string
  = Some (dots after)
  /\ svgContent (scenario_config 128 circle) (dots after) <> None.
Proof.
  intros after.
  apply (export_only_finished_run (Some uniform_canvas) []
           (scenario_config 128 circle) "a"%string 0 [Load 10]).
  - discriminate.
  - reflexivity.
  - vm_compute. reflexivity.
Defined.

(** ** App.tsx: the cutoff and the order of the Dot Set *)

(** X22: a plate whose largest hole is 0.2 mm or less is empty: with
    0 <= minHoleSize <= maxHoleSize <= 0.2 no radius is above the cutoff and
    the run has no dot, whatever the image. *)
Theorem tiny_holes_empty_plate (config : PlateConfig) (data : list byte) :
  0 <= minHoleSize config <= maxHoleSize config ->
  maxHoleSize config <= 0.2 ->
  generate config data = [].
Proof.
  intros Hcfg Hmax.
  destruct (generate config data) as [| d l] eqn:E; [reflexivity |].
  exfalso.
  assert (Hd : In d (generate config data)) by (rewrite E; now left).
  apply in_generate in Hd. destruct Hd as (yi & xi & _ & _ & Hd).
  apply cellDot_some in Hd. destruct Hd as (s & Hs & Hcut & _).
  apply above_cutoff_iff in Hcut.
  assert (Hr := mapRadius_range config s (sample_range _ _ _ Hs) Hcfg).
  revert Hr Hcut. qconst. intros Hr Hcut. lra.
Qed.

Lemma tiny_holes_empty_plate_witness :
  generate (Sidebar.handleChange (Sidebar.MaxHoleSize 0.2)
              (Sidebar.handleChange (Sidebar.MinHoleSize 0.1) DEFAULT_CONFIG))
           (half_luminance_image 3600)
  = [].
Proof.
  apply tiny_holes_empty_plate; [split |]; discriminate.
Defined.

Lemma nth_error_flat_map_blocks {A B : Type} (f : A -> list B) (k : nat)
    (l : list A) :
  (forall a, In a l -> List.length (f a) = k) ->
  forall i j a,
    nth_error l i = Some a -> (j < k)%nat ->
    nth_error (flat_map f l) (i * k + j) = nth_error (f a) j.
Proof.
  induction l as [| b l IH]; intros Hlen i j a Hi Hj.
  - destruct i; discriminate.
  - simpl flat_map. destruct i as [| i]; simpl in Hi.
    + injection Hi as ->. simpl. apply nth_error_app1.
      rewrite (Hlen a (or_introl eq_refl)). exact Hj.
    + rewrite nth_error_app2; rewrite (Hlen b (or_introl eq_refl));
        [| simpl; lia].
      replace (S i * k + j - k)%nat with (i * k + j)%nat by (simpl; lia).
      apply IH; [| exact Hi | exact Hj].
      intros c Hc. apply Hlen. now right.
Qed.

Lemma nth_error_seq_start (len i : nat) :
  (i < len)%nat -> nth_error (seq 0 len) i = Some i.
Proof.
  intros H. rewrite nth_error_nth' with (d := 0%nat) by (rewrite length_seq; lia).
  now rewrite seq_nth.
Qed.

(** X23: when every cell has its dot (minHoleSize above 0.2 mm and a buffer
    that holds every cell), the Dot Set is the grid itself: the dot of the
    cell in row [yi] and column [xi] is at index [yi * cols + xi]. *)
Theorem dot_of_cell_index (config : PlateConfig) (data : list byte)
    (yi xi : nat) :
  0 <= minHoleSize config <= maxHoleSize config ->
  0.2 < minHoleSize config ->
  (4 * cellCount config <= List.length data)%nat ->
  (yi < Z.to_nat (rows config))%nat -> (xi < Z.to_nat (cols config))%nat ->
  exists d,
    nth_error (generate config data) (yi * Z.to_nat (cols config) + xi)
    = Some d
    /\ x d = physX config xi /\ y d = physY config yi.
Proof.
  intros Hcfg Hmin Hlen Hy Hx.
  destruct (cellDot_emitted config data yi xi Hcfg Hmin Hlen Hy Hx) as [d Hd].
  exists d. split.
  - rewrite generate_rows.
    rewrite (nth_error_flat_map_blocks _ (Z.to_nat (cols config)) _)
      with (a := yi).
    + unfold rowDots.
      replace xi with (xi * 1 + 0)%nat at 1 by lia.
      rewrite (nth_error_flat_map_blocks _ 1%nat _) with (a := xi).
      * rewrite Hd. reflexivity.
      * intros xj Hxj. apply in_seq in Hxj.
        destruct (cellDot_emitted config data yi xj Hcfg Hmin Hlen Hy)
          as [dj ->]; [lia | reflexivity].
      * now apply nth_error_seq_start.
      * lia.
    + intros yj Hyj. apply in_seq in Hyj. unfold rowDots.
      rewrite (length_flat_map_eq _ 1%nat).
      * rewrite length_seq. lia.
      * intros xj Hxj. apply in_seq in Hxj.
        destruct (cellDot_emitted config data yj xj Hcfg Hmin Hlen)
          as [dj ->]; [lia | lia | reflexivity].
    + now apply nth_error_seq_start.
    + exact Hx.
  - destruct (cellDot_facts _ _ _ _ _ _ Hcfg Hd) as (Hxd & Hyd & _).
    now split.
Qed.

Lemma dot_of_cell_index_witness :
  exists d,
    nth_error (generate (scenario_config 128 circle) (half_luminance_image 100))
              (3 * Z.to_nat (cols (scenario_config 128 circle)) + 7)
    = Some d
    /\ x d = physX (scenario_config 128 circle) 7
    /\ y d = physY (scenario_config 128 circle) 3.
Proof.
  apply (dot_of_cell_index (scenario_config 128 circle)
           (half_luminance_image 100) 3 7).
  - split; discriminate.
  - reflexivity.
  - vm_compute. lia.
  - vm_compute. lia.
  - vm_compute. lia.
Defined.

(** ** App.tsx: the export of a run *)

Lemma fixed_range_nonneg (v : Q) :
  0 <= v -> v < inject_Z (10 ^ 21) -> fixed_range v.
Proof.
  intros H0 H1. unfold fixed_range. now rewrite Qabs_pos.
Qed.

(** X24: the export of a run writes every circle with two decimals: for a
    plate of the sizes the controls allow (width and height at most 999, a
    margin of at least 0, a positive spacing) and hole sizes with
    0 <= minHoleSize <= maxHoleSize < 10^21, each cx, cy and r of the dots
    of the run is in the range in which [toFixed(2)] writes fixed
    notation. *)
Theorem run_export_two_decimals (config : PlateConfig) (data : list byte) :
  width config <= 999 -> height config <= 999 ->
  0 <= margin config -> 0 < spacing config ->
  0 <= minHoleSize config <= maxHoleSize config ->
  maxHoleSize config < inject_Z (10 ^ 21) ->
  Forall (fun s => two_decimals s = true)
         (flat_map circleValues (generate config data)).
Proof.
  intros Hw Hh Hm Hsp Hcfg Hmax.
  assert (Hbig : 999 < inject_Z (10 ^ 21)) by reflexivity.
  apply Forall_forall. intros s Hs. apply in_flat_map in Hs.
  destruct Hs as (d & Hd & Hs).
  assert (Hr := generate_radius_bounds config data Hcfg).
  rewrite Forall_forall in Hr. specialize (Hr d Hd). simpl in Hr.
  apply in_generate in Hd. destruct Hd as (yi & xi & Hy & Hx & Hd).
  destruct (cellDot_facts _ _ _ _ _ _ Hcfg Hd) as (Hxd & Hyd & _).
  assert (Hpx := physX_inside config xi Hsp Hx).
  assert (Hpy := physY_inside config yi Hsp Hy).
  rewrite <- Hxd in Hpx. rewrite <- Hyd in Hpy.
  revert Hr. qconst. intros Hr.
  unfold circleValues in Hs. simpl in Hs.
  destruct Hs as [<- | [<- | [<- | []]]];
    apply two_decimals_toFixed2, fixed_range_nonneg; lra.
Qed.

Lemma run_export_two_decimals_witness :
  Forall (fun s => two_decimals s = true)
         (flat_map circleValues
            (generate DEFAULT_CONFIG (half_luminance_image 3600))).
Proof.
  apply (run_export_two_decimals DEFAULT_CONFIG (half_luminance_image 3600));
    try discriminate; try reflexivity. split; discriminate.
Defined.
